(** * bigquery_etl.udf.parse_udf: parsing UDF files and rewriting their tests

    A shallow embedding of [bigquery_etl/udf/parse_udf.py] and the proofs of
    the properties its specification states about it.

    A Python [str] is a [string] with one [ascii] per code point, which
    covers the texts whose code points lie below 256. The
    catalog [raw_udfs] (a [dict] from routine name to [RawUdf]) is a
    [gmap string RawUdf], exceptions are the [Raise] outcomes of a small error
    monad and the interpreter's bound on the depth of the call stack is an
    explicit [limit] argument of the one recursive function.

    The [sqlparse] library, the walk over the mozfun directory and the [re]
    module on the patterns that are built from a name with operators of its
    own are parameters of the embedding. The functions that read the disk
    ([RawUdf.from_file], [get_udf_dirs], [read_udf_dirs], [parse_udf_dirs],
    [udf_usages_in_file]) and [ParsedUdf] are left out. *)

From Stdlib Require Import Ascii String ZArith Lia Bool List Sorted.
From stdpp Require Import base option list gmap strings relations.

Local Open Scope Z_scope.
Local Open Scope nat_scope.
Local Open Scope stdpp_scope.

(** ** Outcomes of a call *)

(** The exceptions the module can end a call with. [ValueError] is raised by
    the module itself and by [list.remove], [KeyError] by [raw_udfs[...]],
    [RecursionError] by the interpreter when the call stack is exhausted and
    [ReError] ([re.error]) by the [re] module for a text that is no
    pattern. *)
Inductive exn : Type :=
| ValueError (msg : string)
| KeyError (key : string)
| RecursionError
| ReError (msg : string).

Inductive result (A : Type) : Type :=
| Ret (a : A)
| Raise (e : exn).
Arguments Ret {A} a.
Arguments Raise {A} e.

(** Sequencing: an exception ends the computation. The instance gives the
    notation [x ← m; k]. *)
Global Instance result_bind : MBind result := fun A B k m =>
  match m with
  | Ret a => k a
  | Raise e => Raise e
  end.

(** A [for] loop whose body may raise: the accumulator is threaded through
    the elements in order and the first exception ends the loop. *)
Fixpoint foldM {A B : Type} (f : A -> B -> result A) (a : A) (l : list B)
  : result A :=
  match l with
  | [] => Ret a
  | b :: l' => a' ← f a b; foldM f a' l'
  end.

(** ** Python strings *)

Definition in_range (lo hi c : ascii) : bool :=
  (N_of_ascii lo <=? N_of_ascii c)%N && (N_of_ascii c <=? N_of_ascii hi)%N.

(** [str.isspace], which is also what [split], [strip] and the class [\s]
    of a pattern take for white space: TAB, LF, VT, FF, CR, the four
    separators FS, GS, RS, US, the space, NEL (U+0085) and the no-break
    space (U+00A0). *)
Definition is_space (c : ascii) : bool :=
  in_range "009" "013" c || in_range "028" "032" c
  || Ascii.eqb c "133" || Ascii.eqb c "160".

(** [str.lower] of one character: the upper-case letters are [A] to [Z] and
    U+00C0 to U+00DE without the multiplication sign U+00D7, each 32 below
    its lower-case letter. *)
Definition lower_char (c : ascii) : ascii :=
  if in_range "A" "Z" c
     || in_range "192" "222" c && negb (Ascii.eqb c "215")
  then ascii_of_N (N_of_ascii c + 32) else c.

(** [s.lower()] *)
Fixpoint lower (s : string) : string :=
  match s with
  | "" => ""
  | String c s' => String (lower_char c) (lower s')
  end.

Fixpoint lstrip (s : string) : string :=
  match s with
  | "" => ""
  | String c s' => if is_space c then lstrip s' else s
  end.

Definition rstrip (s : string) : string :=
  String.rev (lstrip (String.rev s)).

(** [s.strip()] *)
Definition strip (s : string) : string := rstrip (lstrip s).

(** The truth value of a [str]: non-empty. *)
Definition truthy (s : string) : bool :=
  match s with "" => false | _ => true end.

(** [s.split()]: the maximal runs of characters that are not white space.
    [cur] holds the run being read, its characters in reverse. *)
Fixpoint split_go (cur : option string) (s : string) : list string :=
  match s with
  | "" => option_list (String.rev <$> cur)
  | String c s' =>
      if is_space c
      then option_list (String.rev <$> cur) ++ split_go None s'
      else split_go (Some (String c (default "" cur))) s'
  end.

Definition split (s : string) : list string := split_go None s.

(** [sep.join(l)] *)
Fixpoint join (sep : string) (l : list string) : string :=
  match l with
  | [] => ""
  | [x] => x
  | x :: l' => x +:+ sep +:+ join sep l'
  end.

(** [s.startswith(p)] *)
Fixpoint startswith (s p : string) : bool :=
  match p, s with
  | "", _ => true
  | String a p', String b s' => if Ascii.eqb a b then startswith s' p' else false
  | String _ _, "" => false
  end.

(** [s.endswith(p)] *)
Definition endswith (s p : string) : bool :=
  startswith (String.rev s) (String.rev p).

(** [sub in s]: [sub] starts at some position of [s]. *)
Fixpoint contains (sub s : string) : bool :=
  startswith s sub ||
  match s with
  | "" => false
  | String _ s' => contains sub s'
  end.

(** [s.replace(old, new)] for one-character [old] and [new]. *)
Fixpoint replace (old new : ascii) (s : string) : string :=
  match s with
  | "" => ""
  | String c s' => String (if Ascii.eqb c old then new else c) (replace old new s')
  end.

Fixpoint take_str (n : nat) (s : string) : string :=
  match n, s with
  | S n', String c s' => String c (take_str n' s')
  | _, _ => ""
  end.

(** ** Python lists of strings *)

(** [x in l] *)
Definition mem (x : string) (l : list string) : bool :=
  existsb (String.eqb x) l.

(** [l.remove(x)]: drops the first element equal to [x] and raises
    [ValueError] when there is none. *)
Fixpoint list_remove (x : string) (l : list string) : result (list string) :=
  match l with
  | [] => Raise (ValueError "list.remove(x): x not in list")
  | y :: l' =>
      if String.eqb y x then Ret l'
      else l'' ← list_remove x l'; Ret (y :: l'')
  end.

Fixpoint insert_sorted (x : string) (l : list string) : list string :=
  match l with
  | [] => [x]
  | y :: l' => if String.leb x y then x :: l else y :: insert_sorted x l'
  end.

(** [sorted(set(l))]: the distinct elements of [l] in increasing order of
    their code points. *)
Definition sorted_set (l : list string) : list string :=
  foldr insert_sorted [] (remove_dups l).

(** [l[start : stop]] for [0 <= start]. *)
Definition slice (start stop : Z) (l : list string) : list string :=
  take (Z.to_nat (stop - start)) (drop (Z.to_nat start) l).

(** ** Regular expressions of the [re] module

    The patterns of the module use literals, character classes, the dot,
    grouping, alternation and greedy repetition. [matches] is the
    backtracking matcher: it lists the states a pattern can reach from a
    state, in the order in which the engine tries them, so the head of the
    list is the match the engine reports. *)

Inductive regex : Type :=
| REps                                  (* the empty pattern *)
| RSet (p : ascii -> bool)              (* a class of characters *)
| RSeq (r1 r2 : regex)                  (* r1 r2 *)
| RAlt (r1 r2 : regex)                  (* r1|r2, r1 tried first *)
| RStar (r : regex)                     (* r*, greedy *)
| RUpto (n : nat) (r : regex)           (* r{0,n}, greedy *)
| RGroup (i : nat) (r : regex)          (* the i-th capturing group *)
| RBol                                  (* ^ *)
| REol.                                 (* $ *)

(** A state of the matcher: the position reached in the subject, the text
    still to read and the groups captured so far (latest first). *)
Record mstate : Type := MState {
  pos : nat;
  rest : string;
  caps : list (nat * string)
}.

(** Greedy repetition of a pattern matched by [m]: one more round first,
    none as the fallback. A round must consume something, and [fuel] bounds
    the rounds by the length of what is left to read. *)
Fixpoint star (m : mstate -> list mstate) (fuel : nat) (st : mstate)
  : list mstate :=
  match fuel with
  | 0 => [st]
  | S fuel' =>
      (st' ← m st;
       if String.length (rest st') <? String.length (rest st)
       then star m fuel' st' else [])
      ++ [st]
  end.

(** Greedy repetition, [n] rounds at most. *)
Fixpoint upto (m : mstate -> list mstate) (n : nat) (st : mstate)
  : list mstate :=
  match n with
  | 0 => [st]
  | S n' => (st' ← m st; upto m n' st') ++ [st]
  end.

Fixpoint matches (r : regex) (st : mstate) : list mstate :=
  match r with
  | REps => [st]
  | RSet p =>
      match rest st with
      | String c s' => if p c then [MState (S (pos st)) s' (caps st)] else []
      | "" => []
      end
  | RSeq r1 r2 => st' ← matches r1 st; matches r2 st'
  | RAlt r1 r2 => matches r1 st ++ matches r2 st
  | RStar r' => star (matches r') (String.length (rest st)) st
  | RUpto n r' => upto (matches r') n st
  | RGroup i r' =>
      (fun st' => MState (pos st') (rest st')
                    ((i, take_str (pos st' - pos st) (rest st)) :: caps st'))
      <$> matches r' st
  | RBol => if pos st =? 0 then [st] else []
  | REol =>
      (* the end of the subject, or just before a newline that ends it *)
      if String.eqb (rest st) "" || String.eqb (rest st) (String "010" "")
      then [st] else []
  end.

(** r+ and r? (both greedy) *)
Definition RPlus (r : regex) : regex := RSeq r (RStar r).
Definition ROpt (r : regex) : regex := RAlt r REps.

Definition RChar (c : ascii) : regex := RSet (Ascii.eqb c).

(** The dot: any character but a newline. *)
Definition RAny : regex := RSet (fun c => negb (Ascii.eqb c "010")).

(** A literal text. *)
Fixpoint RLit (s : string) : regex :=
  match s with
  | "" => REps
  | String c "" => RChar c
  | String c s' => RSeq (RChar c) (RLit s')
  end.

(** A literal text under [re.IGNORECASE]. *)
Fixpoint RLitI (s : string) : regex :=
  match s with
  | "" => REps
  | String c s' =>
      RSeq (RSet (fun d => Ascii.eqb (lower_char d) (lower_char c))) (RLitI s')
  end.

(** A match object: where the match starts, the text it spans ([group(0)])
    and its groups. *)
Record rmatch : Type := RMatch {
  m_start : nat;
  m_text : string;
  m_groups : list (nat * string)
}.

(** [m.group(i)] for a group that took part in the match; otherwise the
    empty string, as a template [\i] expands it. *)
Fixpoint assoc (i : nat) (l : list (nat * string)) : option string :=
  match l with
  | [] => None
  | (j, s) :: l' => if j =? i then Some s else assoc i l'
  end.

Definition group (i : nat) (m : rmatch) : string :=
  default "" (assoc i (m_groups m)).

(** The match of [r] that starts at position [p], where [s] is what the
    subject holds from [p] on. *)
Definition match_at (r : regex) (p : nat) (s : string) : option rmatch :=
  match matches r (MState p s []) with
  | st :: _ => Some (RMatch p (take_str (pos st - p) s) (caps st))
  | [] => None
  end.

(** [r.match(s)]: a match at the beginning of [s]. *)
Definition re_match (r : regex) (s : string) : option rmatch :=
  match_at r 0 s.

(** The scan behind [findall] and [sub]: the subject is cut, from left to
    right, into the leftmost non-overlapping matches ([Hit]) and the
    characters between them ([Gap]). [skip] counts the characters that the
    last match still covers. *)
Inductive piece : Type :=
| Gap (c : ascii)
| Hit (m : rmatch).

Fixpoint scan (r : regex) (p skip : nat) (s : string) : list piece :=
  match skip with
  | S k =>
      match s with
      | String _ s' => scan r (S p) k s'
      | "" => []
      end
  | 0 =>
      match match_at r p s, s with
      | Some m, String c s' =>
          match String.length (m_text m) with
          | 0 => Hit m :: Gap c :: scan r (S p) 0 s'
          | S k => Hit m :: scan r (S p) k s'
          end
      | Some m, "" => [Hit m]
      | None, String c s' => Gap c :: scan r (S p) 0 s'
      | None, "" => []
      end
  end.

(** [r.findall(s)] for a pattern without groups: the texts of the matches. *)
Definition findall (r : regex) (s : string) : list string :=
  omap (fun pc => match pc with Hit m => Some (m_text m) | Gap _ => None end)
       (scan r 0 0 s).

(** [r.findall(s)] for a pattern with two groups: the pairs of groups. *)
Definition findall2 (r : regex) (s : string) : list (string * string) :=
  omap (fun pc => match pc with
                  | Hit m => Some (group 1 m, group 2 m)
                  | Gap _ => None
                  end)
       (scan r 0 0 s).

(** The text that [sub] makes of the pieces: a match gives way to its
    replacement. *)
Definition render (repl : rmatch -> string) (l : list piece) : string :=
  foldr (fun pc out => match pc with
                       | Gap c => String c out
                       | Hit m => repl m +:+ out
                       end) "" l.

(** [r.sub(repl, s)], with the replacement given as a function of the
    match. *)
Definition re_sub (r : regex) (repl : rmatch -> string) (s : string) : string :=
  render repl (scan r 0 0 s).

Notation "r1 ⋅ r2" := (RSeq r1 r2) (at level 41, right associativity).

(** ** Constants of the module *)

Definition NL : string := String "010" "".

Definition UDF_CHAR : string := "[a-zA-z0-9_]".

(** The class [UDF_CHAR] denotes: its second range runs from [A] to the
    lower-case [z]. *)
Definition udf_char (c : ascii) : bool :=
  in_range "a" "z" c || in_range "A" "z" c || in_range "0" "9" c
  || Ascii.eqb c "_".

Definition UDF_FILE : string := "udf.sql".
Definition PROCEDURE_FILE : string := "stored_procedure.sql".

(** [(?:udf|assert)_] followed by one [UDF_CHAR] or more. *)
Definition TEMP_UDF_RE : regex :=
  RAlt (RLit "udf") (RLit "assert") ⋅ RChar "_" ⋅ RPlus (RSet udf_char).

(** Group 1 is [(?:udf|assert)] followed by any number of [UDF_CHAR]s, then
    comes a literal dot, and group 2 is one [UDF_CHAR] or more. *)
Definition PERSISTENT_UDF_RE : regex :=
  RGroup 1 (RAlt (RLit "udf") (RLit "assert") ⋅ RStar (RSet udf_char))
  ⋅ RChar "." ⋅ RGroup 2 (RPlus (RSet udf_char)).

(** [\s+] *)
Definition spaces : regex := RPlus (RSet is_space).

(** [CREATE\s+(OR\s+REPLACE\s+)?FUNCTION(\s+IF\s+NOT\s+EXISTS)?], compiled
    with [re.IGNORECASE] *)
Definition PERSISTENT_UDF_PREFIX : regex :=
  RLitI "CREATE" ⋅ spaces
  ⋅ ROpt (RGroup 1 (RLitI "OR" ⋅ spaces ⋅ RLitI "REPLACE" ⋅ spaces))
  ⋅ RLitI "FUNCTION"
  ⋅ ROpt (RGroup 2 (spaces ⋅ RLitI "IF" ⋅ spaces ⋅ RLitI "NOT" ⋅ spaces
                    ⋅ RLitI "EXISTS")).

Definition alpha (c : ascii) : bool :=
  in_range "a" "z" c || in_range "A" "Z" c.

Definition word_char (c : ascii) : bool :=
  in_range "a" "z" c || in_range "A" "Z" c || in_range "0" "9" c
  || Ascii.eqb c "_".

(** [^([a-zA-Z0-9_]+\.)?[a-zA-Z][a-zA-Z0-9_]{0,255}$] *)
Definition UDF_NAME_RE : regex :=
  RBol ⋅ ROpt (RGroup 1 (RPlus (RSet word_char) ⋅ RChar "."))
  ⋅ RSet alpha ⋅ RUpto 255 (RSet word_char) ⋅ REol.

Definition GENERIC_DATASET : string := "_generic_dataset_".

(** An entry of [MOZFUN_ROUTINES]: a dict with the keys [name] and
    [is_udf]. *)
Record routine : Type := Routine {
  routine_name : string;
  is_udf : bool
}.

(** ** RawUdf *)

(** Representation of the content of a single UDF sql file. *)
Record RawUdf : Type := mkRawUdf {
  name : string;
  dataset : string;
  filepath : option string;
  definitions : list string;
  tests : list string;
  dependencies : list string;
  description : string;
  is_stored_procedure : bool
}.

(** The variables that the loop of [RawUdf.from_text] updates. *)
Record locals : Type := Locals {
  l_internal_name : option string;
  l_is_stored_procedure : bool;
  l_definitions : list string;
  l_tests : list string;
  l_procedure_start : Z
}.

(** [" ".join(s.lower().split())] *)
Definition normalized (s : string) : string := join " " (split (lower s)).

(** The characters that have a meaning of their own in a pattern (the dot
    apart, which [name_pattern] translates) or in the template of a
    substitution. *)
Definition special_char (c : ascii) : bool :=
  existsb (Ascii.eqb c) (list_ascii_of_string "\^$*+?{}[]|()").

(** The names that hold no such character. *)
Fixpoint plain_name (name : string) : bool :=
  match name with
  | "" => true
  | String c name' => negb (special_char c) && plain_name name'
  end.

Section parse_udf.

(** What the module takes from outside: the two functions of the [sqlparse]
    library it calls, the files that [os.walk] finds under [MOZFUN_DIR]
    when the module is loaded, each as the last two components of its
    directory and its file name, and [re.sub] on the patterns that are not
    translated here: from the text of the pattern, the template and the
    subject to the text it returns or the exception it raises. *)
Variable sqlparse_format : string -> string.  (* format(_, strip_comments=True) *)
Variable sqlparse_split : string -> list string.
Variable mozfun_files : list (string * string * string).
Variable re_sub_other : string -> string -> string -> result string.

(** UDFs defined in mozfun *)
Definition MOZFUN_ROUTINES : list routine :=
  (fun '(parent, base, filename) =>
     Routine (parent +:+ "." +:+ base) (String.eqb filename UDF_FILE))
  <$> List.filter (fun '(_, _, filename) => mem filename [UDF_FILE; PROCEDURE_FILE])
                  mozfun_files.

(** The body of the loop over [enumerate(statements)]. *)
Definition classify (statements : list string) (persistent_name temp_name : string)
    (l : locals) (i : nat) (s : string) : locals :=
  let normalized_statement := normalized s in
  if startswith normalized_statement "create or replace function" then
    Locals (if contains persistent_name normalized_statement
            then Some persistent_name else l_internal_name l)
           (l_is_stored_procedure l)
           (l_definitions l ++ [s])
           (l_tests l)
           (l_procedure_start l)
  else if startswith normalized_statement "create temp function" then
    Locals (if contains temp_name normalized_statement
            then Some temp_name else l_internal_name l)
           (l_is_stored_procedure l)
           (l_definitions l ++ [s])
           (l_tests l)
           (l_procedure_start l)
  else if startswith normalized_statement "create or replace procedure" then
    Locals (if contains persistent_name normalized_statement
            then Some persistent_name else l_internal_name l)
           true
           (l_definitions l ++ [s])
           (l_tests l ++ [s])
           (l_procedure_start l)
  else
    let procedure_start :=
      if startswith normalized_statement "begin" then Z.of_nat i
      else l_procedure_start l in
    let tests :=
      if (procedure_start =? -1)%Z then l_tests l ++ [s] else l_tests l in
    if (procedure_start >? -1)%Z && endswith normalized_statement "end;" then
      Locals (l_internal_name l) (l_is_stored_procedure l) (l_definitions l)
             (tests ++ [join " " (slice procedure_start (Z.of_nat i + 1) statements)])
             (-1)%Z
    else
      Locals (l_internal_name l) (l_is_stored_procedure l) (l_definitions l)
             tests procedure_start.

(** [for i, s in enumerate(statements)], from index [i] on. *)
Fixpoint classify_all (statements : list string) (persistent_name temp_name : string)
    (i : nat) (l : locals) (todo : list string) : locals :=
  match todo with
  | [] => l
  | s :: todo' =>
      classify_all statements persistent_name temp_name (S i)
        (classify statements persistent_name temp_name l i s) todo'
  end.

Definition expected_msg (persistent_name temp_name : string) : string :=
  "Expected a function named " +:+ persistent_name +:+ " or " +:+ temp_name
  +:+ " to be defined".

Definition invalid_msg (name : string) : string :=
  "Invalid UDF name " +:+ name +:+ ": Must start with alpha char, "
  +:+ "limited to chars " +:+ UDF_CHAR +:+ ", be at most 256 chars long".

(** The body of the loop [for name in (prod_name, internal_name)]. *)
Definition check_name (is_defined : bool) (persistent_name temp_name : string)
    (_ : unit) (name : option string) : result unit :=
  match name with
  | None => Raise (ValueError (expected_msg persistent_name temp_name))
  | Some name =>
      if is_defined && negb (bool_decide (is_Some (re_match UDF_NAME_RE name)))
      then Raise (ValueError (invalid_msg name))
      else Ret tt
  end.

(** The usages of persistent and temporary UDFs and of mozfun routines that
    [from_text] finds in the definitions. *)
Definition definition_usages (definitions : list string) : list string :=
  let dependencies :=
    (fun t => join "." [t.1; t.2])
    <$> findall2 PERSISTENT_UDF_RE (join NL definitions) in
  let dependencies := dependencies ++ findall TEMP_UDF_RE (join NL definitions) in
  foldl (fun dependencies udf =>
           if contains (routine_name udf) (join NL definitions)
           then dependencies ++ [routine_name udf] else dependencies)
        dependencies MOZFUN_ROUTINES.

(** [RawUdf.from_text]: create a RawUdf instance from text. *)
Definition from_text (text dataset name : string) (filepath : option string)
    (description : string) (is_defined : bool) : result RawUdf :=
  let sql := sqlparse_format text in
  let statements := List.filter (fun s => truthy (strip s)) (sqlparse_split sql) in
  let prod_name := name in
  let persistent_name := dataset +:+ "." +:+ name in
  let temp_name := dataset +:+ "_" +:+ name in
  let l := classify_all statements persistent_name temp_name 0
             (Locals None false [] [] (-1)%Z) statements in
  _ ← foldM (check_name is_defined persistent_name temp_name) tt
        [Some prod_name; l_internal_name l];
  let internal_name := default "" (l_internal_name l) in
  let dependencies := definition_usages (l_definitions l) in
  dependencies ← (if is_defined then list_remove internal_name dependencies
                  else Ret dependencies);
  Ret (mkRawUdf internal_name dataset filepath (l_definitions l) (l_tests l)
         (sorted_set dependencies) description (l_is_stored_procedure l)).

(** ** Dependencies and the rewriting of tests *)

(** Accumulate a list of dependent UDF names: recurse into the UDF's
    dependencies, adding the names to [deps] in depth-first order. [limit] is
    the number of nested calls the call stack still has room for. *)
Fixpoint accumulate_dependencies (limit : nat) (deps : list string)
    (raw_udfs : gmap string RawUdf) (udf_name : string) : result (list string) :=
  match limit with
  | 0 => Raise RecursionError
  | S limit' =>
      match raw_udfs !! udf_name with
      | None => Ret deps
      | Some raw_udf =>
          deps ← foldM (fun deps dep =>
                          accumulate_dependencies limit' deps raw_udfs dep)
                       deps (dependencies raw_udf);
          if mem udf_name deps then Ret deps else Ret (deps ++ [udf_name])
      end
  end.

(** Return a list of UDF names used in the provided SQL text. *)
Definition udf_usages_in_text (text : string) : list string :=
  let sql := sqlparse_format text in
  let udf_usages :=
    (fun t => join "." [t.1; t.2]) <$> findall2 PERSISTENT_UDF_RE sql in
  (* the TEMP_UDF_RE matches udf_js, remove since it's not a valid UDF *)
  let tmp_udfs :=
    List.filter (fun u => negb (String.eqb u "udf_js")) (findall TEMP_UDF_RE sql) in
  let udf_usages := udf_usages ++ tmp_udfs in
  let udf_usages :=
    foldl (fun udf_usages routine =>
             if contains (routine_name routine) sql
             then udf_usages ++ [routine_name routine] else udf_usages)
          udf_usages MOZFUN_ROUTINES in
  sorted_set udf_usages.

(** [raw_udfs[udf_name]] *)
Definition getitem (raw_udfs : gmap string RawUdf) (udf_name : string)
  : result RawUdf :=
  match raw_udfs !! udf_name with
  | Some raw_udf => Ret raw_udf
  | None => Raise (KeyError udf_name)
  end.

(** Return a list of definitions of UDFs used in provided SQL text. The
    catalog [raw_udfs] is given (the default, read from the disk, is not). *)
Definition udf_usage_definitions (limit : nat) (text : string)
    (raw_udfs : gmap string RawUdf) : result (list string) :=
  deps ← foldM (fun deps udf_usage =>
                  accumulate_dependencies limit deps raw_udfs udf_usage)
               [] (udf_usages_in_text text);
  foldM (fun out udf_name =>
           raw_udf ← getitem raw_udfs udf_name;
           Ret (out ++ List.filter (fun statement => negb (contains statement text))
                                   (definitions raw_udf)))
        [] deps.

(** Prepend definitions of UDFs used to provided SQL text. *)
Definition prepend_udf_usage_definitions (limit : nat) (text : string)
    (raw_udfs : gmap string RawUdf) : result string :=
  statements ← udf_usage_definitions limit text raw_udfs;
  Ret (join (NL +:+ NL) (statements ++ [text])).

(** Substitute persistent UDF references with temporary UDF references:
    the template is [\1_\2]. *)
Definition sub_persistent_udf_names_as_temp (text : string) : string :=
  re_sub PERSISTENT_UDF_RE (fun m => group 1 m +:+ "_" +:+ group 2 m) text.

(** The pattern that a name without special characters is: each character
    stands for itself, but for the dot, which stands for any character but
    a newline. *)
Fixpoint name_pattern (name : string) : regex :=
  match name with
  | "" => REps
  | String c s' => (if Ascii.eqb c "." then RAny else RChar c) ⋅ name_pattern s'
  end.

(** The pattern [r"(?:mozfun.)?" + name] for such a name. *)
Definition routine_pattern (name : string) : regex :=
  ROpt (RLit "mozfun" ⋅ RAny) ⋅ name_pattern name.

(** [re.sub(regex_str, replace_name, sql)] for the [regex_str] that
    [sub_local_routines] builds from the name of a routine. The name is not
    escaped: when it holds a special character the text is another pattern,
    or none ([re.error]), and the template may hold an escape; the call is
    then left to [re_sub_other]. *)
Definition sub_routine_name (name replace_name sql : string) : result string :=
  let regex_str := "(?:mozfun.)?" +:+ name in
  if plain_name name
  then Ret (re_sub (routine_pattern name) (fun _ => replace_name) sql)
  else re_sub_other regex_str replace_name sql.

(** The name that replaces a mozfun routine in [sub_local_routines]. *)
Definition replace_name (routine : routine) : string :=
  let replace_name := replace "." "_" (routine_name routine) in
  if negb (is_udf routine) then GENERIC_DATASET +:+ "." +:+ replace_name
  else replace_name.

(** Transform persistent UDFs into temporary UDFs. Use generic dataset for
    stored procedures. *)
Definition sub_local_routines (limit : nat) (test : string)
    (raw_udfs : gmap string RawUdf) : result string :=
  sql ← prepend_udf_usage_definitions limit test raw_udfs;
  let sql := sub_persistent_udf_names_as_temp sql in
  sql ← foldM (fun sql routine =>
                 if contains (routine_name routine) sql
                 then sub_routine_name (routine_name routine)
                                       (replace_name routine) sql
                 else Ret sql)
              sql MOZFUN_ROUTINES;
  Ret (re_sub PERSISTENT_UDF_PREFIX (fun _ => "CREATE TEMP FUNCTION") sql).

(** Create tests for testing persistent UDFs. *)
Definition udf_tests_sql (limit : nat) (raw_udf : RawUdf)
    (raw_udfs : gmap string RawUdf) : result (list string) :=
  foldM (fun tests_full_sql test =>
           test_sql ← sub_local_routines limit test raw_udfs;
           Ret (tests_full_sql ++ [test_sql]))
        [] (tests raw_udf).

End parse_udf.

(** * Vocabulary of the properties *)

(** ** Strings *)

Fixpoint all_chars (p : ascii -> bool) (s : string) : bool :=
  match s with
  | "" => true
  | String c s' => p c && all_chars p s'
  end.

Definition head_in (p : ascii -> bool) (s : string) : bool :=
  match s with
  | "" => false
  | String c _ => p c
  end.

Definition first_char (s : string) : option ascii :=
  match s with
  | "" => None
  | String c _ => Some c
  end.

Fixpoint has_char (c : ascii) (s : string) : bool :=
  match s with
  | "" => false
  | String d s' => Ascii.eqb d c || has_char c s'
  end.

(** The text that [join] puts before the rest when [l] is followed by more. *)
Definition lead (sep : string) (l : list string) : string :=
  foldr (fun x out => x +:+ sep +:+ out) "" l.

(** ** Patterns *)

(** [reach r st t]: from the state [st] the pattern [r] can match and leave
    the text [t] to read. [accepts r L]: the texts [r] can leave are those
    that [L] relates to the text it starts from. *)
Definition reach (r : regex) (st : mstate) (t : string) : Prop :=
  exists st', st' ∈ matches r st /\ rest st' = t.

Definition accepts (r : regex) (L : string -> string -> Prop) : Prop :=
  forall st t, reach r st t <-> L (rest st) t.

(** ** The rule of [UDF_NAME_RE] *)

(** A leading letter, then letters, digits and underscores: 256 characters
    at most. *)
Definition identifier (s : string) : Prop :=
  exists c t, s = String c t /\ alpha c = true /\ all_chars word_char t = true
              /\ String.length t <= 255.

(** Nothing, or letters, digits and underscores followed by a dot. *)
Definition dataset_prefix (s : string) : Prop :=
  s = "" \/ exists d, s = d +:+ "." /\ d <> "" /\ all_chars word_char d = true.

(** The names [UDF_NAME_RE] matches: an optional dataset prefix and an
    identifier, which a final newline may follow (the [$] of the pattern
    lets it pass). *)
Definition identifier_rule (s : string) : Prop :=
  exists p i e,
    s = p +:+ i +:+ e /\ dataset_prefix p /\ identifier i /\ (e = "" \/ e = NL).

(** The rule in the words of the specification: an optional dataset prefix
    ending in a dot, then a leading letter, then only letters, digits and
    underscores, with total length at most 256. *)
Definition spec_identifier_rule (s : string) : Prop :=
  String.length s <= 256 /\
  exists p c t, s = p +:+ String c t /\ dataset_prefix p /\ alpha c = true
                /\ all_chars word_char t = true.

(** ** The loop of [from_text] *)

(** The statements that [from_text] classifies. *)
Definition statements_of (sqlparse_format : string -> string)
    (sqlparse_split : string -> list string) (text : string) : list string :=
  List.filter (fun s => truthy (strip s)) (sqlparse_split (sqlparse_format text)).

(** The value of [internal_name] when the loop of [from_text] is over. *)
Definition internal_name_of (sqlparse_format : string -> string)
    (sqlparse_split : string -> list string) (text dataset name : string)
  : option string :=
  l_internal_name
    (classify_all (statements_of sqlparse_format sqlparse_split text)
       (dataset +:+ "." +:+ name) (dataset +:+ "_" +:+ name) 0
       (Locals None false [] [] (-1)%Z)
       (statements_of sqlparse_format sqlparse_split text)).

(** The statements that [from_text] classifies as definitions. *)
Definition is_definition (s : string) : bool :=
  startswith (normalized s) "create or replace function"
  || startswith (normalized s) "create temp function"
  || startswith (normalized s) "create or replace procedure".

(** What [from_text] reads of the variables of its loop once the loop is
    over: all but [procedure_start]. *)
Definition same_result (l l' : locals) : Prop :=
  l_internal_name l = l_internal_name l' /\
  l_is_stored_procedure l = l_is_stored_procedure l' /\
  l_definitions l = l_definitions l' /\
  l_tests l = l_tests l'.

(** ** The catalog as a graph *)

(** [a] is a routine of the catalog and [b] one of its dependencies. *)
Definition depends (raw_udfs : gmap string RawUdf) (a b : string) : Prop :=
  exists raw_udf, raw_udfs !! a = Some raw_udf /\ b ∈ dependencies raw_udf.

Definition on_cycle (raw_udfs : gmap string RawUdf) (a : string) : Prop :=
  tc (depends raw_udfs) a a.

Definition acyclic (raw_udfs : gmap string RawUdf) : Prop :=
  forall a, ~ on_cycle raw_udfs a.

(** [a] leads to a cycle. *)
Definition doomed (raw_udfs : gmap string RawUdf) (a : string) : Prop :=
  exists b, rtc (depends raw_udfs) a b /\ on_cycle raw_udfs b.

(** A chain of calls: [chain raw_udfs a p] when [p] lists [a] and the names
    the nested calls descend through, each a routine of the catalog that has
    the next one among its dependencies. *)
Inductive chain (raw_udfs : gmap string RawUdf) : string -> list string -> Prop :=
| chain_nil a : chain raw_udfs a []
| chain_cons a b raw_udf p :
    raw_udfs !! a = Some raw_udf -> b ∈ dependencies raw_udf ->
    chain raw_udfs b p -> chain raw_udfs a (a :: p).

(** The call ends with an exception other than the exhaustion of the call
    stack. *)
Definition raises_other_than_recursion (o : result (list string)) : Prop :=
  exists e, o = Raise e /\ e <> RecursionError.

(** [l] is [deps] followed by routines of the catalog, each added once and
    none of them in [deps]. *)
Definition extends (raw_udfs : gmap string RawUdf) (deps l : list string) : Prop :=
  exists ext, l = deps ++ ext /\ Forall (fun x => is_Some (raw_udfs !! x)) ext
              /\ NoDup ext /\ forall x, x ∈ ext -> x ∉ deps.

(** [b] comes before [a] in [l]. *)
Definition before (l : list string) (b a : string) : Prop :=
  exists l1 l2 l3, l = l1 ++ [b] ++ l2 ++ [a] ++ l3.

(** In [l] every routine comes after its dependencies in the catalog. *)
Definition dep_first (raw_udfs : gmap string RawUdf) (l : list string) : Prop :=
  forall a raw_udf b, a ∈ l -> raw_udfs !! a = Some raw_udf ->
    b ∈ dependencies raw_udf -> is_Some (raw_udfs !! b) -> before l b a.

(** The definitions that [udf_usage_definitions] takes from one routine. *)
Definition missing_definitions (raw_udfs : gmap string RawUdf)
    (text udf_name : string) : list string :=
  match raw_udfs !! udf_name with
  | Some raw_udf =>
      List.filter (fun statement => negb (contains statement text))
                  (definitions raw_udf)
  | None => []
  end.

(** ** Further vocabulary *)

(** [b] is a dependency of the routine [a] and a routine of the catalog
    itself. *)
Definition depends_in (raw_udfs : gmap string RawUdf) (a b : string) : Prop :=
  depends raw_udfs a b /\ is_Some (raw_udfs !! b).

(** [l] holds, with each of its routines, the dependencies of the routine
    that the catalog has. *)
Definition closed (raw_udfs : gmap string RawUdf) (l : list string) : Prop :=
  forall a raw_udf b, a ∈ l -> raw_udfs !! a = Some raw_udf ->
    b ∈ dependencies raw_udf -> is_Some (raw_udfs !! b) -> b ∈ l.

(** The statements that define a function. *)
Definition is_function_definition (s : string) : bool :=
  startswith (normalized s) "create or replace function"
  || startswith (normalized s) "create temp function".

(** The statements that define a stored procedure. *)
Definition is_procedure_definition (s : string) : bool :=
  startswith (normalized s) "create or replace procedure".

(** The statements that open a span. *)
Definition opens_span (s : string) : bool :=
  startswith (normalized s) "begin".

(** The variables of the loop of [from_text] when the loop is over. *)
Definition final_locals (sqlparse_format : string -> string)
    (sqlparse_split : string -> list string) (text dataset name : string)
  : locals :=
  classify_all (statements_of sqlparse_format sqlparse_split text)
    (dataset +:+ "." +:+ name) (dataset +:+ "_" +:+ name) 0
    (Locals None false [] [] (-1)%Z)
    (statements_of sqlparse_format sqlparse_split text).

(** A statement inside a span: no definition, it neither opens a span nor
    ends one. *)
Definition inside_span (s : string) : bool :=
  negb (is_definition s) && negb (opens_span s)
  && negb (endswith (normalized s) "end;").

(** A statement that ends the span it stands in: it ends with [end;], is no
    definition and does not begin with [begin] (which would open a span
    anew). *)
Definition closes_span (s : string) : bool :=
  negb (is_definition s) && negb (opens_span s)
  && endswith (normalized s) "end;".

(** [t] is [s] with some of its dots turned into underscores. *)
Inductive dots_to_underscores : string -> string -> Prop :=
| dtu_nil : dots_to_underscores "" ""
| dtu_same c s t :
    dots_to_underscores s t -> dots_to_underscores (String c s) (String c t)
| dtu_dot s t :
    dots_to_underscores s t -> dots_to_underscores (String "." s) (String "_" t).

(** What a match consumes: [st'] is [st] after a text has been read. *)
Definition consumed (st st' : mstate) : Prop :=
  exists w, rest st = w +:+ rest st' /\ pos st' = String.length w + pos st.

(** The patterns without capturing groups. *)
Fixpoint group_free (r : regex) : bool :=
  match r with
  | REps | RSet _ | RBol | REol => true
  | RSeq r1 r2 | RAlt r1 r2 => group_free r1 && group_free r2
  | RStar r' | RUpto _ r' => group_free r'
  | RGroup _ _ => false
  end.

(** A reference that [PERSISTENT_UDF_RE] matches where a text begins: the
    text is [ds.nm] and then [post], where [ds] is [udf] or [assert] with any
    number of [UDF_CHAR]s after it, [nm] is one [UDF_CHAR] or more, and
    [post] does not go on with a [UDF_CHAR]. *)
Definition persistent_reference (ds nm post : string) : Prop :=
  (exists kw d, (kw = "udf" \/ kw = "assert") /\ ds = kw +:+ d
                /\ all_chars udf_char d = true)
  /\ all_chars udf_char nm = true /\ nm <> ""
  /\ head_in udf_char post = false.

(** [rewrites_references s t]: reading [s] from left to right, [t] has an
    underscore for the dot of every reference that begins where the reading
    stands, after which the reading goes on behind the reference, and every
    other character as [s] has it. *)
Inductive rewrites_references : string -> string -> Prop :=
| rr_end : rewrites_references "" ""
| rr_reference ds nm post out :
    persistent_reference ds nm post ->
    rewrites_references post out ->
    rewrites_references (ds +:+ "." +:+ nm +:+ post) (ds +:+ "_" +:+ nm +:+ out)
| rr_other c s out :
    (forall ds nm post,
        String c s = ds +:+ "." +:+ nm +:+ post -> ~ persistent_reference ds nm post) ->
    rewrites_references s out ->
    rewrites_references (String c s) (String c out).

(** What [sub_local_routines] does to the text once the definitions are
    prepended: the three substitutions. *)
Definition rewrite_names (mozfun_files : list (string * string * string))
    (re_sub_other : string -> string -> string -> result string) (sql : string)
  : result string :=
  let sql := sub_persistent_udf_names_as_temp sql in
  sql ← foldM (fun sql routine =>
                 if contains (routine_name routine) sql
                 then sub_routine_name re_sub_other (routine_name routine)
                                       (replace_name routine) sql
                 else Ret sql)
              sql (MOZFUN_ROUTINES mozfun_files);
  Ret (re_sub PERSISTENT_UDF_PREFIX (fun _ => "CREATE TEMP FUNCTION") sql).

(** The registries all of whose names are without special characters. *)
Definition plain_registry (mozfun_files : list (string * string * string)) : Prop :=
  Forall (fun routine => plain_name (routine_name routine) = true)
         (MOZFUN_ROUTINES mozfun_files).

(** ** Substitutions, piece by piece *)



(** [w] is empty or begins with [c]. *)
Definition tail_of (c : ascii) (w : string) : bool :=
  match w with
  | "" => true
  | String d _ => Ascii.eqb d c
  end.




(** * Sample inputs *)

(** Stand-ins for the two functions of [sqlparse], for texts without
    comments, quotes and nested blocks: formatting changes nothing and a
    statement ends with each semicolon. *)
Definition no_comments (text : string) : string := text.

Fixpoint cut_statements (cur s : string) : list string :=
  match s with
  | "" => [String.rev cur]
  | String c s' =>
      if Ascii.eqb c ";" then String.rev (String c cur) :: cut_statements "" s'
      else cut_statements (String c cur) s'
  end.

Definition split_statements (sql : string) : list string :=
  strip <$> cut_statements "" sql.

(** A stand-in for [re.sub] on the patterns that are not translated, for
    registries whose names hold no special character: it is never called. *)
Definition no_other_pattern (pattern repl s : string) : result string :=
  Raise (ReError pattern).

Fixpoint repeat_char (c : ascii) (n : nat) : string :=
  match n with
  | 0 => ""
  | S n' => String c (repeat_char c n')
  end.

Definition def_a : string := "CREATE OR REPLACE FUNCTION udf.a() AS (udf.b());".
Definition def_b : string := "CREATE OR REPLACE FUNCTION udf.b() AS (1);".
Definition def_b_cyclic : string := "CREATE OR REPLACE FUNCTION udf.b() AS (udf.a());".

(** [udf.a] depends on [udf.b]. *)
Definition sample_catalog : gmap string RawUdf :=
  {[ "udf.a" := mkRawUdf "udf.a" "udf" None [def_a] ["SELECT udf.a();"]
                ["udf.b"] "" false;
     "udf.b" := mkRawUdf "udf.b" "udf" None [def_b] [] [] "" false ]}.

(** [udf.a] depends on [udf.b], which depends on [udf.a]. *)
Definition cyclic_catalog : gmap string RawUdf :=
  {[ "udf.a" := mkRawUdf "udf.a" "udf" None [def_a] [] ["udf.b"] "" false;
     "udf.b" := mkRawUdf "udf.b" "udf" None [def_b_cyclic] [] ["udf.a"] "" false ]}.

(** A name of 256 letters. *)
Definition long_name : string := repeat_char "a" 256.

(** * Proofs *)

(** ** Strings, lists and loops *)

Lemma app_cons_s c s t : String c s +:+ t = String c (s +:+ t).
Proof. reflexivity. Qed.


Lemma app_assoc_s s t u : (s +:+ t) +:+ u = s +:+ t +:+ u.
Proof. induction s as [|c s IH]; [done|]. by rewrite !app_cons_s, IH. Qed.

Lemma length_app_s s t :
  String.length (s +:+ t) = String.length s + String.length t.
Proof.
  induction s as [|c s IH]; [done|]. rewrite app_cons_s. simpl. by rewrite IH.
Qed.

Lemma take_str_app a b : take_str (String.length a) (a +:+ b) = a.
Proof.
  induction a as [|c a IH]; [by destruct b|].
  rewrite app_cons_s. simpl. by rewrite IH.
Qed.

Lemma take_str_app' n a b : n = String.length a -> take_str n (a +:+ b) = a.
Proof. intros ->. apply take_str_app. Qed.

Lemma startswith_cons b s a p :
  startswith (String b s) (String a p)
  = if Ascii.eqb a b then startswith s p else false.
Proof. reflexivity. Qed.

Lemma has_char_app c a b : has_char c (a +:+ String c b) = true.
Proof.
  induction a as [|d a IH].
  - simpl. by rewrite Ascii.eqb_refl.
  - rewrite app_cons_s. simpl. by rewrite IH, orb_true_r.
Qed.

Lemma has_char_dot a b : has_char "." (a +:+ "." +:+ b) = true.
Proof. exact (has_char_app "." a b). Qed.

Lemma join_cons sep x l : l <> [] -> join sep (x :: l) = x +:+ sep +:+ join sep l.
Proof. by destruct l. Qed.

Lemma join_app sep l1 l2 :
  l2 <> [] -> join sep (l1 ++ l2) = lead sep l1 +:+ join sep l2.
Proof.
  intros Hl2. induction l1 as [|x l1 IH]; [done|].
  rewrite <- app_comm_cons, join_cons, IH.
  - simpl. by rewrite !app_assoc_s.
  - by destruct l1, l2.
Qed.

Lemma mem_elem_of x l : mem x l = true <-> x ∈ l.
Proof.
  unfold mem. rewrite existsb_exists. split.
  - intros (y & Hy & ->%String.eqb_eq). by apply list_elem_of_In.
  - intros H. exists x. split; [by apply list_elem_of_In | apply String.eqb_refl].
Qed.

Lemma elem_of_insert_sorted x y l : x ∈ insert_sorted y l <-> x = y \/ x ∈ l.
Proof.
  induction l as [|z l IH]; simpl.
  - rewrite list_elem_of_singleton, elem_of_nil. tauto.
  - destruct (String.leb y z); rewrite !elem_of_cons; [done|]. rewrite IH. tauto.
Qed.

Lemma elem_of_sorted_set x l : x ∈ sorted_set l <-> x ∈ l.
Proof.
  unfold sorted_set. rewrite <- (elem_of_remove_dups l).
  induction (remove_dups l) as [|y l' IH]; simpl; [done|].
  rewrite elem_of_insert_sorted, IH, elem_of_cons. tauto.
Qed.

Lemma list_remove_raise x l e :
  list_remove x l = Raise e -> e = ValueError "list.remove(x): x not in list".
Proof.
  induction l as [|y l IH]; simpl; [by intros [= <-]|].
  destruct (String.eqb y x); [done|].
  destruct (list_remove x l); simpl; [done|]. intros [= <-]. by apply IH.
Qed.

Lemma slice_app (a b : Z) (pre more : list string) :
  (0 <= a)%Z -> (b <= Z.of_nat (length pre))%Z ->
  slice a b (pre ++ more) = slice a b pre.
Proof.
  intros Ha Hb. unfold slice.
  destruct (decide (Z.to_nat a <= length pre)) as [Hle|Hgt].
  - rewrite drop_app_le by done. rewrite take_app_le; [done|].
    rewrite length_drop. lia.
  - replace (Z.to_nat (b - a)) with 0 by lia. by rewrite !take_0.
Qed.

Lemma bind_Ret {A B} (a : A) (k : A -> result B) : Ret a ≫= k = k a.
Proof. reflexivity. Qed.

Lemma foldM_cons {A B} (f : A -> B -> result A) a b l :
  foldM f a (b :: l) = f a b ≫= fun a' => foldM f a' l.
Proof. reflexivity. Qed.

(** A relation that every round of a loop respects holds between the value
    the loop starts from and the one it returns. *)
Lemma foldM_inv {A B} (R : A -> A -> Prop) (f : A -> B -> result A) l :
  (forall a, R a a) -> (forall a b c, R a b -> R b c -> R a c) ->
  (forall a b a', b ∈ l -> f a b = Ret a' -> R a a') ->
  forall a a', foldM f a l = Ret a' -> R a a'.
Proof.
  intros Hrefl Htrans. induction l as [|b l IH]; intros Hf a a' H; simpl in H.
  - injection H as <-. apply Hrefl.
  - destruct (f a b) as [a1|e] eqn:E; simpl in H; [|discriminate].
    apply Htrans with a1.
    + eapply Hf; [left | done].
    + apply IH; [|done]. intros ???? ?. eapply Hf; [by right | done].
Qed.

(** What a round establishes for its element, and later rounds keep, holds
    for every element when the loop returns. *)
Lemma foldM_elem {A B} (Q : B -> A -> Prop) (f : A -> B -> result A) l :
  (forall a b a', f a b = Ret a' -> Q b a') ->
  (forall a b a' c, f a b = Ret a' -> Q c a -> Q c a') ->
  forall a a', foldM f a l = Ret a' -> forall b, b ∈ l -> Q b a'.
Proof.
  intros Hnew Hmono. induction l as [|b l IH]; intros a a' H c Hc; [inversion Hc|].
  simpl in H. destruct (f a b) as [a1|e] eqn:E; simpl in H; [|discriminate].
  apply elem_of_cons in Hc as [->|Hc]; [|by eapply IH].
  assert (Q b a1) as HQ by eauto. clear E Hnew IH.
  revert a1 H HQ. induction l as [|b' l IH]; intros a1 H HQ; simpl in H.
  - by injection H as <-.
  - destruct (f a1 b') as [a2|e] eqn:E; simpl in H; [|discriminate]. eauto.
Qed.

Lemma foldM_raise_inv {A B} (f : A -> B -> result A) l : forall a e,
  foldM f a l = Raise e -> exists a' b, b ∈ l /\ f a' b = Raise e.
Proof.
  induction l as [|b l IH]; intros a e H; simpl in H; [discriminate|].
  destruct (f a b) as [a1|e1] eqn:E; simpl in H.
  - destruct (IH _ _ H) as (a' & b' & Hb & Hf). exists a', b'.
    split; [by right | done].
  - injection H as ->. exists a, b. split; [left | done].
Qed.

Lemma foldM_raise {A B} (f : A -> B -> result A) l b e0 :
  (forall a b' e, f a b' = Raise e -> e = e0) ->
  b ∈ l -> (forall a, f a b = Raise e0) -> forall a, foldM f a l = Raise e0.
Proof.
  intros Honly Hb Hf. induction l as [|b' l IH]; intros a; [inversion Hb|].
  simpl. destruct (f a b') as [a1|e1] eqn:E; simpl.
  - apply elem_of_cons in Hb as [->|Hb]; [by rewrite Hf in E | by apply IH].
  - f_equal. by eapply Honly.
Qed.

(** ** accumulate_dependencies *)

Section accumulate.
Context (raw_udfs : gmap string RawUdf).

Lemma extends_refl deps : extends raw_udfs deps deps.
Proof.
  exists []. rewrite app_nil_r. repeat split; [constructor.. | ].
  intros x Hx. inversion Hx.
Qed.

Lemma extends_trans a b c :
  extends raw_udfs a b -> extends raw_udfs b c -> extends raw_udfs a c.
Proof.
  intros (e1 & -> & F1 & N1 & D1) (e2 & -> & F2 & N2 & D2).
  exists (e1 ++ e2). rewrite app_assoc. repeat split.
  - by apply Forall_app.
  - apply NoDup_app. repeat split; [done | | done].
    intros x H1 H2. apply (D2 x H2). set_solver.
  - intros x [H|H]%elem_of_app; [by apply D1 |].
    intros Hx. apply (D2 x H). set_solver.
Qed.

Lemma extends_elem deps l x : extends raw_udfs deps l -> x ∈ deps -> x ∈ l.
Proof. intros (ext & -> & _) ?. set_solver. Qed.

Lemma accumulate_extends limit : forall deps udf_name l,
  accumulate_dependencies limit deps raw_udfs udf_name = Ret l ->
  extends raw_udfs deps l.
Proof.
  induction limit as [|limit IH]; intros deps udf_name l H; simpl in H.
  - discriminate.
  - destruct (raw_udfs !! udf_name) as [raw_udf|] eqn:Hget.
    + destruct (foldM _ deps (dependencies raw_udf)) as [deps'|e] eqn:Hloop;
        simpl in H; [|discriminate].
      assert (extends raw_udfs deps deps') as Hext.
      { revert Hloop. apply foldM_inv.
        - apply extends_refl.
        - apply extends_trans.
        - intros a b a' _. apply IH. }
      destruct (mem udf_name deps') eqn:Hmem; injection H as <-; [done|].
      eapply extends_trans; [done|].
      exists [udf_name]. repeat split.
      * constructor; [by rewrite Hget | constructor].
      * apply NoDup_singleton.
      * intros x ->%list_elem_of_singleton Hx%mem_elem_of. congruence.
    + injection H as <-. apply extends_refl.
Qed.

(** The only exception of a call is the exhaustion of the stack. *)
Lemma accumulate_raise limit : forall deps udf_name e,
  accumulate_dependencies limit deps raw_udfs udf_name = Raise e ->
  e = RecursionError.
Proof.
  induction limit as [|limit IH]; intros deps udf_name e H; simpl in H.
  - by injection H.
  - destruct (raw_udfs !! udf_name) as [raw_udf|]; [|discriminate].
    destruct (foldM _ deps (dependencies raw_udf)) as [deps'|e'] eqn:Hloop;
      simpl in H.
    + by destruct (mem udf_name deps').
    + injection H as ->. apply foldM_raise_inv in Hloop as (a & b & _ & Hf). eauto.
Qed.

(** A routine of the catalog is in the list when its call returns. *)
Lemma accumulate_elem limit deps a l :
  accumulate_dependencies limit deps raw_udfs a = Ret l ->
  is_Some (raw_udfs !! a) -> a ∈ l.
Proof.
  destruct limit as [|limit]; simpl; [done|]. intros H [r Hr]. rewrite Hr in H.
  destruct (foldM _ deps (dependencies r)) as [deps'|e]; simpl in H; [|done].
  destruct (mem a deps') eqn:Hmem; injection H as <-.
  - by apply mem_elem_of.
  - set_solver.
Qed.

(** *** Cycles *)

Lemma doomed_step a :
  doomed raw_udfs a -> exists raw_udf b,
    raw_udfs !! a = Some raw_udf /\ b ∈ dependencies raw_udf /\ doomed raw_udfs b.
Proof.
  intros (c & Hac & Hc). destruct Hac as [a | a b c (r & Hr & Hb) Hbc].
  - unfold on_cycle in Hc.
    inversion Hc as [x y (r & Hr & Hb) | x b y (r & Hr & Hb) Hba]; subst.
    + exists r, a. repeat split; [done..|]. exists a. split; [constructor | done].
    + exists r, b. repeat split; [done..|]. exists a. split; [by apply tc_rtc | done].
  - exists r, b. repeat split; [done..|]. by exists c.
Qed.

Lemma doomed_raises limit : forall a deps,
  doomed raw_udfs a ->
  accumulate_dependencies limit deps raw_udfs a = Raise RecursionError.
Proof.
  induction limit as [|limit IH]; intros a deps Ha; simpl; [done|].
  destruct (doomed_step a Ha) as (r & b & -> & Hb & Hdb).
  rewrite (foldM_raise _ _ b RecursionError); [done | | done | ].
  - intros ???. apply accumulate_raise.
  - intros ?. by apply IH.
Qed.

(** *** Catalogs without cycles *)

(** A call that exhausts the stack went down a chain as long as the room
    the stack had. *)
Lemma raise_chain limit : forall deps a e,
  accumulate_dependencies limit deps raw_udfs a = Raise e ->
  exists p, length p = limit /\ chain raw_udfs a p.
Proof.
  induction limit as [|limit IH]; intros deps a e H; simpl in H.
  - exists []. split; [done | constructor].
  - destruct (raw_udfs !! a) as [r|] eqn:Hr; [|discriminate].
    destruct (foldM _ deps (dependencies r)) as [deps'|e'] eqn:Hloop; simpl in H.
    + by destruct (mem a deps').
    + apply foldM_raise_inv in Hloop as (a' & b & Hb & Hf).
      apply IH in Hf as (p & Hlen & Hp).
      exists (a :: p). split; [simpl; congruence | by econstructor].
Qed.

Lemma chain_dom a p x : chain raw_udfs a p -> x ∈ p -> is_Some (raw_udfs !! x).
Proof.
  induction 1 as [|a b r p Hr Hb Hp IH]; intros Hx; [inversion Hx|].
  apply elem_of_cons in Hx as [->|Hx]; [by rewrite Hr | auto].
Qed.

Lemma chain_reach a p x :
  chain raw_udfs a p -> x ∈ tail p -> tc (depends raw_udfs) a x.
Proof.
  induction 1 as [|a b r p Hr Hb Hp IH]; intros Hx; [inversion Hx|].
  simpl in Hx. inversion Hp as [|b' c r' p' Hr' Hc Hp']; subst; [inversion Hx|].
  apply elem_of_cons in Hx as [->|Hx].
  - apply tc_once. by exists r.
  - eapply tc_l; [by exists r|]. apply IH. done.
Qed.

Lemma chain_cycle a p :
  chain raw_udfs a p -> ~ NoDup p -> exists x, on_cycle raw_udfs x.
Proof.
  induction 1 as [|a b r p Hr Hb Hp IH]; intros Hnd.
  - destruct Hnd. constructor.
  - destruct (decide (a ∈ p)) as [Hin|Hnin].
    + exists a. eapply chain_reach; [by econstructor | done].
    + apply IH. intros Hp'. apply Hnd. by constructor.
Qed.

Lemma chain_short a p :
  acyclic raw_udfs -> chain raw_udfs a p -> length p <= size raw_udfs.
Proof.
  intros Hac Hp.
  destruct (decide (NoDup p)) as [Hnd|Hnd].
  - rewrite <- (length_map_to_list raw_udfs), <- (length_fmap fst).
    apply submseteq_length, NoDup_submseteq; [done|].
    intros x Hx. destruct (chain_dom _ _ _ Hp Hx) as [r Hr].
    apply list_elem_of_fmap. exists (x, r). split; [done|].
    by apply elem_of_map_to_list.
  - destruct (chain_cycle _ _ Hp Hnd) as [x Hx]. by destruct (Hac x).
Qed.

(** Without cycles a call returns as soon as the stack has room for one call
    more than the catalog has routines. *)
Lemma accumulate_returns limit deps a :
  acyclic raw_udfs -> size raw_udfs < limit ->
  exists l, accumulate_dependencies limit deps raw_udfs a = Ret l.
Proof.
  intros Hac Hlim.
  destruct (accumulate_dependencies limit deps raw_udfs a) as [l|e] eqn:E;
    [by exists l|].
  apply raise_chain in E as (p & Hlen & Hp).
  apply (chain_short _ _ Hac) in Hp. lia.
Qed.

(** *** Dependencies first *)

Lemma before_app l ext b a : before l b a -> before (l ++ ext) b a.
Proof.
  intros (l1 & l2 & l3 & ->). exists l1, l2, (l3 ++ ext).
  by rewrite <- !app_assoc.
Qed.

Lemma accumulate_dep_first limit : forall deps a l,
  accumulate_dependencies limit deps raw_udfs a = Ret l ->
  dep_first raw_udfs deps -> dep_first raw_udfs l.
Proof.
  induction limit as [|limit IH]; intros deps a l H Hdeps; simpl in H; [done|].
  destruct (raw_udfs !! a) as [r|] eqn:Hr; [|by injection H as <-].
  destruct (foldM _ deps (dependencies r)) as [deps'|e] eqn:Hloop;
    simpl in H; [|done].
  assert (dep_first raw_udfs deps') as Hdeps'.
  { revert Hdeps. revert Hloop.
    apply (foldM_inv (fun d d' => dep_first raw_udfs d -> dep_first raw_udfs d'));
      [auto | auto | eauto]. }
  assert (forall b, b ∈ dependencies r -> is_Some (raw_udfs !! b) -> b ∈ deps')
    as Hall.
  { intros b Hb. revert b Hb.
    eapply (foldM_elem (fun b d => is_Some (raw_udfs !! b) -> b ∈ d));
      [ | | exact Hloop].
    - intros d b d' Hf Hs. eapply accumulate_elem; [exact Hf | done].
    - intros d b d' c Hf Hc Hsome.
      eapply extends_elem; [eapply accumulate_extends; exact Hf | auto]. }
  destruct (mem a deps') eqn:Hmem; injection H as <-; [done|].
  intros x rx b Hx Hrx Hb Hbc.
  apply elem_of_app in Hx as [Hx|Hx]; [|apply list_elem_of_singleton in Hx as ->].
  - apply before_app. eauto.
  - rewrite Hr in Hrx. injection Hrx as <-.
    apply Hall in Hb; [|done].
    apply list_elem_of_split in Hb as (l1 & l2 & ->).
    exists l1, l2, []. by rewrite <- !app_assoc.
Qed.

End accumulate.

(** C10. When [accumulate_dependencies deps raw_udfs udf_name] returns, the
    list it returns starts with [deps], everything after [deps] is a key of
    the catalog, and a name is appended only when it is not yet in the list:
    the appended names are distinct and none is in [deps], so a list
    without duplicates stays without duplicates. *)
Theorem accumulate_dependencies_appends limit deps raw_udfs udf_name l :
  accumulate_dependencies limit deps raw_udfs udf_name = Ret l ->
  exists ext,
    l = deps ++ ext /\
    Forall (fun x => is_Some (raw_udfs !! x)) ext /\
    NoDup ext /\ (forall x, x ∈ ext -> x ∉ deps) /\
    (NoDup deps -> NoDup l).
Proof.
  intros H. destruct (accumulate_extends _ _ _ _ _ H) as (ext & -> & Hall & Hnd & Hnew).
  exists ext. repeat split; [done.. | ].
  intros Hdeps. apply NoDup_app. repeat split; [done | | done].
  intros x Hx Hx'. by apply (Hnew x).
Qed.

Lemma accumulate_dependencies_appends_witness :
  exists ext,
    ["udf.b"; "udf.a"] = @nil string ++ ext /\
    Forall (fun x => is_Some (sample_catalog !! x)) ext /\
    NoDup ext /\ (forall x, x ∈ ext -> x ∉ @nil string) /\
    (NoDup (@nil string) -> NoDup ["udf.b"; "udf.a"]).
Proof.
  apply (accumulate_dependencies_appends 3 [] sample_catalog "udf.a").
  vm_compute. reflexivity.
Defined.

(** C1 (as the code has it). The function has no guard against cycles: for
    every catalog and every name on a dependency cycle of it, the call
    raises no error of its own and does not return; whatever room the call
    stack has, the recursion uses it up and the call ends with
    [RecursionError]. *)
Theorem accumulate_dependencies_cycle_exhausts_stack raw_udfs udf_name :
  on_cycle raw_udfs udf_name ->
  forall limit deps,
    accumulate_dependencies limit deps raw_udfs udf_name = Raise RecursionError.
Proof.
  intros Hc limit deps. apply doomed_raises. exists udf_name.
  split; [constructor | done].
Qed.

Lemma cyclic_catalog_cycle : on_cycle cyclic_catalog "udf.a".
Proof.
  eapply tc_l; [|apply tc_once].
  - eexists. split; [reflexivity | by left].
  - eexists. split; [reflexivity | by left].
Qed.

Lemma accumulate_dependencies_cycle_exhausts_stack_witness :
  on_cycle cyclic_catalog "udf.a" /\
  accumulate_dependencies 1000 [] cyclic_catalog "udf.a" = Raise RecursionError.
Proof.
  split; [exact cyclic_catalog_cycle |].
  apply (accumulate_dependencies_cycle_exhausts_stack cyclic_catalog "udf.a").
  exact cyclic_catalog_cycle.
Defined.

(** C1 as stated fails: on a catalog where [udf.a] depends on [udf.b] and
    [udf.b] on [udf.a], no room of the call stack makes the call on [udf.a]
    end with an error other than the exhaustion of the stack. *)
Lemma accumulate_dependencies_no_cyclic_error :
  ~ exists limit,
      raises_other_than_recursion
        (accumulate_dependencies limit [] cyclic_catalog "udf.a").
Proof.
  intros (limit & e & H & He).
  rewrite (doomed_raises cyclic_catalog limit "udf.a" []) in H.
  - congruence.
  - exists "udf.a". split; [constructor | exact cyclic_catalog_cycle].
Qed.

(** ** The matcher *)

Lemma mstate_eta st : MState (pos st) (rest st) (caps st) = st.
Proof. by destruct st. Qed.

Lemma head_bind {A B} (f : A -> list B) l x y :
  head l = Some x -> head (f x) = Some y -> head (l ≫= f) = Some y.
Proof.
  destruct l as [|x' l]; [done|]. intros [= ->]. simpl.
  destruct (f x) as [|y' l']; [done|]. by intros [= ->].
Qed.

Lemma head_fmap {A B} (f : A -> B) l : head (f <$> l) = f <$> head l.
Proof. by destruct l. Qed.

Lemma head_app {A} (l l' : list A) x : head l = Some x -> head (l ++ l') = Some x.
Proof. by destruct l. Qed.

Lemma matches_set p st c s :
  rest st = String c s ->
  matches (RSet p) st = if p c then [MState (S (pos st)) s (caps st)] else [].
Proof. intros H. simpl. by rewrite H. Qed.

Lemma star_S m fuel st :
  star m (S fuel) st
  = (st' ← m st;
     if String.length (rest st') <? String.length (rest st)
     then star m fuel st' else [])
    ++ [st].
Proof. reflexivity. Qed.

Lemma matches_set_nil p st : rest st = "" -> matches (RSet p) st = [].
Proof. intros H. simpl. by rewrite H. Qed.

Lemma star_set_head p : forall d st t,
  rest st = d +:+ t -> all_chars p d = true -> head_in p t = false ->
  head (matches (RStar (RSet p)) st)
  = Some (MState (String.length d + pos st) t (caps st)).
Proof.
  intros d st t. change (matches (RStar (RSet p)) st)
    with (star (matches (RSet p)) (String.length (rest st)) st).
  generalize (eq_refl (String.length (rest st))).
  generalize (String.length (rest st)) at 1 3 as fuel. intros fuel Hfuel.
  revert st t fuel Hfuel.
  induction d as [|c d IH]; intros st t fuel Hfuel Hrest Hd Ht.
  - change (rest st = t) in Hrest. simpl String.length. rewrite Nat.add_0_l.
    rewrite <- Hrest, mstate_eta.
    destruct fuel as [|fuel]; [done|]. rewrite star_S.
    destruct t as [|c s].
    + by rewrite (matches_set_nil p st).
    + simpl in Ht. by rewrite (matches_set p st c s), Ht.
  - rewrite app_cons_s in Hrest. simpl in Hd. apply andb_true_iff in Hd as [Hc Hd].
    rewrite Hrest in Hfuel. simpl in Hfuel. subst fuel. rewrite star_S.
    rewrite (matches_set p st c (d +:+ t)) by done. rewrite Hc. simpl.
    rewrite Hrest. simpl String.length.
    rewrite (proj2 (Nat.ltb_lt _ _)) by lia. rewrite app_nil_r.
    apply head_app.
    rewrite (IH (MState (S (pos st)) (d +:+ t) (caps st)) t) by done.
    simpl. do 2 f_equal. lia.
Qed.

Lemma bind_singleton {A B} (f : A -> list B) x : [x] ≫= f = f x.
Proof. simpl. apply app_nil_r. Qed.

Lemma matches_seq r1 r2 st : matches (r1 ⋅ r2) st = matches r1 st ≫= matches r2.
Proof. reflexivity. Qed.

Lemma matches_alt r1 r2 st : matches (RAlt r1 r2) st = matches r1 st ++ matches r2 st.
Proof. reflexivity. Qed.

Lemma matches_group i r st :
  matches (RGroup i r) st
  = (fun st' => MState (pos st') (rest st')
                  ((i, take_str (pos st' - pos st) (rest st)) :: caps st'))
    <$> matches r st.
Proof. reflexivity. Qed.

Lemma matches_char c st s :
  rest st = String c s -> matches (RChar c) st = [MState (S (pos st)) s (caps st)].
Proof. intros H. unfold RChar. by rewrite (matches_set _ st c s), Ascii.eqb_refl. Qed.

Lemma matches_lit w : forall st t,
  rest st = w +:+ t ->
  matches (RLit w) st = [MState (String.length w + pos st) t (caps st)].
Proof.
  induction w as [|c w IH]; intros st t H.
  - change (rest st = t) in H. simpl. by rewrite <- H, mstate_eta.
  - rewrite app_cons_s in H. destruct w as [|c' w].
    + change (RLit (String c "")) with (RChar c). by rewrite (matches_char c st t).
    + change (RLit (String c (String c' w))) with (RChar c ⋅ RLit (String c' w)).
      rewrite matches_seq, (matches_char c st _ H), bind_singleton.
      rewrite (IH _ t) by done. simpl. do 2 f_equal. lia.
Qed.

Lemma matches_plus_set_head p d st t :
  rest st = d +:+ t -> d <> "" -> all_chars p d = true -> head_in p t = false ->
  head (matches (RPlus (RSet p)) st)
  = Some (MState (String.length d + pos st) t (caps st)).
Proof.
  intros H Hne Hd Ht. destruct d as [|c d]; [done|]. clear Hne.
  rewrite app_cons_s in H. simpl in Hd. apply andb_true_iff in Hd as [Hc Hd].
  unfold RPlus. rewrite matches_seq, (matches_set p st c _ H), Hc, bind_singleton.
  rewrite (star_set_head p d _ t) by done. simpl. do 2 f_equal. lia.
Qed.

Lemma keyword_head kw st t :
  kw = "udf" \/ kw = "assert" -> rest st = kw +:+ t ->
  head (matches (RAlt (RLit "udf") (RLit "assert")) st)
  = Some (MState (String.length kw + pos st) t (caps st)).
Proof.
  intros [-> | ->] H; rewrite matches_alt.
  - by rewrite (matches_lit "udf" st t).
  - rewrite (matches_lit "assert" st t) by done.
    destruct st as [p r c]. simpl in H. subst r. reflexivity.
Qed.

Lemma match_at_head r p s st :
  head (matches r (MState p s [])) = Some st ->
  match_at r p s = Some (RMatch p (take_str (pos st - p) s) (caps st)).
Proof. unfold match_at. destruct (matches r _); [done|]. by intros [= ->]. Qed.

Lemma match_at_nil r p s :
  matches r (MState p s []) = [] -> match_at r p s = None.
Proof. unfold match_at. by intros ->. Qed.

Lemma head_udf_char_dot t : head_in udf_char ("." +:+ t) = false.
Proof. reflexivity. Qed.

Lemma persistent_head kw d i post p0 :
  kw = "udf" \/ kw = "assert" ->
  all_chars udf_char d = true -> all_chars udf_char i = true -> i <> "" ->
  head_in udf_char post = false ->
  match_at PERSISTENT_UDF_RE p0 (kw +:+ d +:+ "." +:+ i +:+ post)
  = Some (RMatch p0 (kw +:+ d +:+ "." +:+ i) [(2, i); (1, kw +:+ d)]).
Proof.
  intros Hkw Hd Hi Hne Hpost.
  set (s := kw +:+ d +:+ "." +:+ i +:+ post).
  set (st0 := MState p0 s []).
  set (n1 := String.length d + (String.length kw + p0)).
  set (g1 := RGroup 1 (RAlt (RLit "udf") (RLit "assert") ⋅ RStar (RSet udf_char))).
  assert (head (matches g1 st0)
          = Some (MState n1 ("." +:+ i +:+ post) [(1, kw +:+ d)])) as H1.
  { unfold g1. rewrite matches_group, matches_seq.
    erewrite head_fmap, head_bind;
      [ | by apply (keyword_head kw st0) | by apply (star_set_head udf_char d) ].
    simpl. unfold s. rewrite <- (app_assoc_s kw d).
    by rewrite (take_str_app' _ (kw +:+ d)) by (rewrite length_app_s; lia). }
  assert (head (matches (g1 ⋅ RChar "." ⋅ RGroup 2 (RPlus (RSet udf_char))) st0)
          = Some (MState (String.length i + S n1) post [(2, i); (1, kw +:+ d)])) as H2.
  { rewrite matches_seq. eapply head_bind; [exact H1|].
    rewrite matches_seq, (matches_char "." _ (i +:+ post)) by done.
    rewrite bind_singleton, matches_group.
    erewrite head_fmap, (matches_plus_set_head udf_char i _ post); [ | done..].
    simpl. by rewrite (take_str_app' _ i) by lia. }
  rewrite (match_at_head PERSISTENT_UDF_RE p0 s _ H2). simpl. unfold s.
  rewrite <- (app_assoc_s "." i), <- (app_assoc_s d), <- (app_assoc_s kw).
  rewrite (take_str_app' _ (kw +:+ d +:+ "." +:+ i)); [done|].
  rewrite !length_app_s. unfold n1. simpl. lia.
Qed.

(** ** The scan *)

Lemma scan_gap r p c s :
  match_at r p (String c s) = None ->
  scan r p 0 (String c s) = Gap c :: scan r (S p) 0 s.
Proof. intros H. simpl. by rewrite H. Qed.

Lemma scan_hit r p c s m k :
  match_at r p (String c s) = Some m -> String.length (m_text m) = S k ->
  scan r p 0 (String c s) = Hit m :: scan r (S p) k s.
Proof. intros H Hk. simpl. by rewrite H, Hk. Qed.

Lemma scan_skip r : forall w p s,
  scan r p (String.length w) (w +:+ s) = scan r (String.length w + p) 0 s.
Proof.
  induction w as [|c w IH]; intros p s; [done|].
  rewrite app_cons_s. simpl. rewrite IH. f_equal. lia.
Qed.

(** C3 as stated fails: in the reference [ds.f] neither [udf] nor [assert]
    stands before the dot, so that the pattern finds no match and the
    reference is left as it is. *)
Lemma sub_persistent_leaves_other_datasets :
  sub_persistent_udf_names_as_temp "SELECT ds.f(1);" = "SELECT ds.f(1);"
  /\ sub_persistent_udf_names_as_temp "SELECT ds.f(1);" <> "SELECT ds_f(1);".
Proof. split; [reflexivity | vm_compute; discriminate]. Qed.

(** ** What the patterns accept *)


Lemma accepts_set p :
  accepts (RSet p) (fun s t => exists c, s = String c t /\ p c = true).
Proof.
  intros st t. unfold reach. simpl. destruct (rest st) as [|c s]; split.
  - intros (st' & H & _). inversion H.
  - by intros (c & ? & _).
  - intros (st' & H & Ht). destruct (p c) eqn:Hc; [|inversion H].
    apply list_elem_of_singleton in H as ->. simpl in Ht. subst. eauto.
  - intros (c' & [= -> ->] & ->). eexists. split; [by left | done].
Qed.

Lemma accepts_seq r1 r2 L1 L2 :
  accepts r1 L1 -> accepts r2 L2 ->
  accepts (r1 ⋅ r2) (fun s t => exists u, L1 s u /\ L2 u t).
Proof.
  intros H1 H2 st t. unfold reach. rewrite matches_seq. split.
  - intros (st'' & (st' & Hst'' & Hst')%list_elem_of_bind & Ht).
    exists (rest st'). split; [apply H1 | apply H2]; unfold reach; eauto.
  - intros (u & (st' & Hst' & <-)%H1 & (st'' & Hst'' & Ht)%H2).
    exists st''. split; [|done]. apply list_elem_of_bind. eauto.
Qed.

Lemma accepts_alt r1 r2 L1 L2 :
  accepts r1 L1 -> accepts r2 L2 ->
  accepts (RAlt r1 r2) (fun s t => L1 s t \/ L2 s t).
Proof.
  intros H1 H2 st t. unfold reach. rewrite matches_alt. split.
  - intros (st' & [H|H]%elem_of_app & Ht); [left; apply H1 | right; apply H2];
      unfold reach; eauto.
  - intros [(st' & H & Ht)%H1 | (st' & H & Ht)%H2]; exists st';
      (split; [|done]); apply elem_of_app; eauto.
Qed.

Lemma accepts_eps : accepts REps (fun s t => s = t).
Proof.
  intros st t. unfold reach. simpl. split.
  - by intros (st' & ->%list_elem_of_singleton & Ht).
  - intros <-. exists st. split; [by left | done].
Qed.

Lemma accepts_opt r L : accepts r L -> accepts (ROpt r) (fun s t => L s t \/ s = t).
Proof. intros H. apply accepts_alt; [done | apply accepts_eps]. Qed.

Lemma accepts_group i r L : accepts r L -> accepts (RGroup i r) L.
Proof.
  intros H st t. split.
  - intros (st'' & Hst'' & Ht). apply H. rewrite matches_group in Hst''.
    apply list_elem_of_fmap in Hst'' as (st' & -> & Hst'). by exists st'.
  - intros (st' & Hst' & Ht)%H. unfold reach. rewrite matches_group. eexists. split.
    + apply list_elem_of_fmap. exists st'. split; [reflexivity | done].
    + exact Ht.
Qed.

Lemma accepts_eol : accepts REol (fun s t => s = t /\ (t = "" \/ t = NL)).
Proof.
  intros st t. unfold reach. simpl. split.
  - intros (st' & H & Ht).
    destruct (String.eqb (rest st) "") eqn:E1; simpl in H.
    { apply list_elem_of_singleton in H as ->. apply String.eqb_eq in E1.
      split; [done|]. left. congruence. }
    destruct (String.eqb (rest st) (String "010" "")) eqn:E2; [|inversion H].
    apply list_elem_of_singleton in H as ->. apply String.eqb_eq in E2.
    split; [done|]. right. unfold NL. congruence.
  - intros [<- [E|E]]; rewrite E; exists st; (split; [by left | done]).
Qed.

Lemma star_self m fuel st : st ∈ star m fuel st.
Proof. destruct fuel; [by left|]. rewrite star_S. apply elem_of_app. right. by left. Qed.

Lemma accepts_star_set p :
  accepts (RStar (RSet p)) (fun s t => exists l, all_chars p l = true /\ s = l +:+ t).
Proof.
  intros st t. unfold reach.
  change (matches (RStar (RSet p)) st)
    with (star (matches (RSet p)) (String.length (rest st)) st).
  assert (String.length (rest st) <= String.length (rest st)) as Hfuel by done.
  revert Hfuel. generalize (String.length (rest st)) at 2 3 as fuel.
  intros fuel Hfuel. split.
  - clear Hfuel. intros (st' & H & <-). revert st H.
    induction fuel as [|fuel IH]; intros st H.
    { apply list_elem_of_singleton in H as ->. by exists "". }
    rewrite star_S in H. apply elem_of_app in H as [H|H].
    + apply list_elem_of_bind in H as (st1 & H & H1).
      destruct (_ <? _); [|inversion H].
      destruct (proj1 (accepts_set p st (rest st1))) as (c & Hc & Hp); [by exists st1|].
      destruct (IH _ H) as (l & Hl & Hrest).
      exists (String c l). split; [simpl; by rewrite Hp | ].
      by rewrite Hc, Hrest.
    + apply list_elem_of_singleton in H as ->. by exists "".
  - intros (l & Hl & Hrest). revert st fuel Hfuel Hrest.
    induction l as [|c l IH]; intros st fuel Hfuel Hrest.
    { exists st. split; [apply star_self | done]. }
    rewrite app_cons_s in Hrest. simpl in Hl. apply andb_true_iff in Hl as [Hc Hl].
    rewrite Hrest in Hfuel. simpl in Hfuel.
    destruct fuel as [|fuel]; [lia|].
    destruct (IH Hl (MState (S (pos st)) (l +:+ t) (caps st)) fuel) as (st' & H & Ht);
      [simpl; lia | done |].
    exists st'. split; [|done]. rewrite star_S. apply elem_of_app. left.
    apply list_elem_of_bind. eexists.
    split; [|rewrite (matches_set p st c _ Hrest), Hc; by left].
    simpl. rewrite Hrest. simpl. by rewrite (proj2 (Nat.ltb_lt _ _)) by lia.
Qed.

Lemma accepts_plus_set p :
  accepts (RPlus (RSet p))
          (fun s t => exists l, l <> "" /\ all_chars p l = true /\ s = l +:+ t).
Proof.
  intros st t. unfold RPlus.
  rewrite (accepts_seq _ _ _ _ (accepts_set p) (accepts_star_set p) st t). split.
  - intros (u & (c & -> & Hc) & l & Hl & ->).
    exists (String c l). split; [done|]. split; [simpl; by rewrite Hc | done].
  - intros ([|c l] & Hne & Hl & ->); [done|].
    simpl in Hl. apply andb_true_iff in Hl as [Hc Hl].
    exists (l +:+ t). split; [by exists c | by exists l].
Qed.

Lemma upto_S m n st :
  upto m (S n) st = (st' ← m st; upto m n st') ++ [st].
Proof. reflexivity. Qed.

Lemma accepts_upto_set p n :
  accepts (RUpto n (RSet p))
          (fun s t => exists l, String.length l <= n /\ all_chars p l = true
                                /\ s = l +:+ t).
Proof.
  intros st t. unfold reach.
  change (matches (RUpto n (RSet p)) st) with (upto (matches (RSet p)) n st).
  split.
  - intros (st' & H & <-). revert st H.
    induction n as [|n IH]; intros st H.
    { apply list_elem_of_singleton in H as ->. exists "". simpl. split; [lia | done]. }
    rewrite upto_S in H. apply elem_of_app in H as [H|H].
    + apply list_elem_of_bind in H as (st1 & H & H1).
      destruct (proj1 (accepts_set p st (rest st1))) as (c & Hc & Hp); [by exists st1|].
      destruct (IH _ H) as (l & Hlen & Hl & Hrest).
      exists (String c l). repeat split; [simpl; lia | simpl; by rewrite Hp | ].
      by rewrite Hc, Hrest.
    + apply list_elem_of_singleton in H as ->. exists "". simpl. split; [lia | done].
  - intros (l & Hlen & Hl & Hrest). revert st n Hlen Hrest.
    induction l as [|c l IH]; intros st n Hlen Hrest.
    { exists st. split; [|done]. destruct n; [by left|].
      rewrite upto_S. apply elem_of_app. right. by left. }
    rewrite app_cons_s in Hrest. simpl in Hl. apply andb_true_iff in Hl as [Hc Hl].
    simpl in Hlen. destruct n as [|n]; [lia|].
    destruct (IH Hl (MState (S (pos st)) (l +:+ t) (caps st)) n) as (st' & H & Ht);
      [lia | done |].
    exists st'. split; [|done]. rewrite upto_S. apply elem_of_app. left.
    apply list_elem_of_bind. eexists. split; [exact H|].
    rewrite (matches_set p st c _ Hrest), Hc. by left.
Qed.

Lemma is_Some_match_at r p s :
  is_Some (match_at r p s) <-> exists t, reach r (MState p s []) t.
Proof.
  unfold match_at, reach. destruct (matches r _) as [|st l]; split.
  - by intros [? ?].
  - intros (t & st' & H & _). inversion H.
  - intros _. exists (rest st), st. split; [by left | done].
  - by intros _.
Qed.

Lemma eqb_dot c : Ascii.eqb "." c = true -> c = "."%char.
Proof. intros H. by apply Ascii.eqb_eq in H. Qed.

(** ** Every reference is rewritten *)

Lemma accepts_lit w : accepts (RLit w) (fun s t => s = w +:+ t).
Proof.
  induction w as [|c w IH]; [apply accepts_eps|]. destruct w as [|c' w].
  - intros st t. change (RLit (String c "")) with (RSet (Ascii.eqb c)).
    rewrite (accepts_set (Ascii.eqb c) st t). split.
    + by intros (c0 & -> & ->%Ascii.eqb_eq).
    + intros ->. exists c. split; [done | apply Ascii.eqb_refl].
  - intros st t.
    change (RLit (String c (String c' w))) with (RSet (Ascii.eqb c) ⋅ RLit (String c' w)).
    rewrite (accepts_seq _ _ _ _ (accepts_set (Ascii.eqb c)) IH st t). split.
    + by intros (u & (c0 & -> & ->%Ascii.eqb_eq) & ->).
    + intros ->. exists (String c' w +:+ t). split; [|done].
      exists c. split; [done | apply Ascii.eqb_refl].
Qed.

Lemma all_chars_app p s t :
  all_chars p s = true -> all_chars p t = true -> all_chars p (s +:+ t) = true.
Proof.
  induction s as [|c s IH]; [done|]. rewrite app_cons_s. simpl.
  intros [-> Hs]%andb_true_iff Ht. by apply IH.
Qed.

(** The characters of a class that a text begins with. *)
Lemma maximal_run p : forall t,
  exists run t', t = run +:+ t' /\ all_chars p run = true /\ head_in p t' = false.
Proof.
  induction t as [|c t (run & t' & -> & Hrun & Ht')].
  - by exists "", "".
  - destruct (p c) eqn:Hc.
    + exists (String c run), t'. simpl. by rewrite Hc.
    + exists "", (String c (run +:+ t')). by simpl.
Qed.

(** What [PERSISTENT_UDF_RE] can read. *)
Lemma persistent_reach p s t :
  reach PERSISTENT_UDF_RE (MState p s []) t ->
  exists kw d nm,
    (kw = "udf" \/ kw = "assert") /\ all_chars udf_char d = true
    /\ all_chars udf_char nm = true /\ nm <> ""
    /\ s = kw +:+ d +:+ "." +:+ nm +:+ t.
Proof.
  pose proof (accepts_seq _ _ _ _
    (accepts_group 1 _ _
       (accepts_seq _ _ _ _
          (accepts_alt _ _ _ _ (accepts_lit "udf") (accepts_lit "assert"))
          (accepts_star_set udf_char)))
    (accepts_seq _ _ _ _ (accepts_set (Ascii.eqb "."))
       (accepts_group 2 _ _ (accepts_plus_set udf_char)))) as Hacc.
  intros H. apply Hacc in H. simpl in H.
  destruct H as (u & (v & Hkw & d & Hd & ->) & w & (c & -> & ->%eqb_dot)
                 & nm & Hne & Hnm & ->).
  destruct Hkw as [-> | ->]; [exists "udf" | exists "assert"]; exists d, nm; auto.
Qed.

(** The match of [PERSISTENT_UDF_RE] where a reference begins: the
    reference, with the dataset and the name as its two groups. *)
Lemma persistent_reference_match p ds nm post :
  persistent_reference ds nm post ->
  match_at PERSISTENT_UDF_RE p (ds +:+ "." +:+ nm +:+ post)
  = Some (RMatch p (ds +:+ "." +:+ nm) [(2, nm); (1, ds)]).
Proof.
  intros ((kw & d & Hkw & -> & Hd) & Hnm & Hne & Hpost).
  rewrite !app_assoc_s. by apply persistent_head.
Qed.

(** The engine reports no other match: it reads the longest name. *)
Lemma persistent_match p s m :
  match_at PERSISTENT_UDF_RE p s = Some m ->
  exists ds nm post,
    s = ds +:+ "." +:+ nm +:+ post /\ persistent_reference ds nm post
    /\ m = RMatch p (ds +:+ "." +:+ nm) [(2, nm); (1, ds)].
Proof.
  intros Hm.
  assert (is_Some (match_at PERSISTENT_UDF_RE p s)) as [t Ht]%is_Some_match_at
    by (by rewrite Hm).
  apply persistent_reach in Ht as (kw & d & nm & Hkw & Hd & Hnm & Hne & ->).
  destruct (maximal_run udf_char t) as (run & post & -> & Hrun & Hpost).
  assert (persistent_reference (kw +:+ d) (nm +:+ run) post) as Href.
  { split; [by exists kw, d|]. split; [by apply all_chars_app|].
    split; [by destruct nm | done]. }
  exists (kw +:+ d), (nm +:+ run), post.
  assert (kw +:+ d +:+ "." +:+ nm +:+ run +:+ post
          = (kw +:+ d) +:+ "." +:+ (nm +:+ run) +:+ post) as E
    by (by rewrite !app_assoc_s).
  rewrite E in *. split; [done|]. split; [done|].
  rewrite (persistent_reference_match p _ _ _ Href) in Hm. by injection Hm as <-.
Qed.

(** [PERSISTENT_UDF_RE] has a match where a text begins exactly when a
    reference begins there. *)
Lemma persistent_reference_iff p s :
  is_Some (match_at PERSISTENT_UDF_RE p s)
  <-> exists ds nm post,
        s = ds +:+ "." +:+ nm +:+ post /\ persistent_reference ds nm post.
Proof.
  split.
  - intros [m Hm]. apply persistent_match in Hm as (ds & nm & post & ? & ? & _).
    by exists ds, nm, post.
  - intros (ds & nm & post & -> & Href).
    by rewrite (persistent_reference_match p _ _ _ Href).
Qed.

(** The scan at a reference: the replacement, and on behind the reference. *)
Lemma scan_reference p ds nm post :
  persistent_reference ds nm post ->
  render (fun m => group 1 m +:+ "_" +:+ group 2 m)
         (scan PERSISTENT_UDF_RE p 0 (ds +:+ "." +:+ nm +:+ post))
  = ds +:+ "_" +:+ nm
    +:+ render (fun m => group 1 m +:+ "_" +:+ group 2 m)
               (scan PERSISTENT_UDF_RE (String.length (ds +:+ "." +:+ nm) + p) 0 post).
Proof.
  intros Href. pose proof (persistent_reference_match p _ _ _ Href) as Hm.
  assert (exists c w, ds +:+ "." +:+ nm = String c w) as (c & w & Hw).
  { destruct Href as ((kw & d & [-> | ->] & -> & _) & _); by eexists _, _. }
  assert (ds +:+ "." +:+ nm +:+ post = String c (w +:+ post)) as E.
  { rewrite <- app_cons_s, <- Hw. by rewrite !app_assoc_s. }
  rewrite E in *. rewrite Hw in *.
  rewrite (scan_hit _ _ _ _ _ (String.length w) Hm) by done.
  rewrite scan_skip. simpl render. unfold group. simpl.
  replace (String.length w + S p) with (S (String.length w + p)) by lia.
  by rewrite !app_assoc_s.
Qed.

Lemma rewrites_scan : forall n s p,
  String.length s <= n ->
  rewrites_references s
    (render (fun m => group 1 m +:+ "_" +:+ group 2 m) (scan PERSISTENT_UDF_RE p 0 s)).
Proof.
  induction n as [|n IH]; intros s p Hn.
  - destruct s; [apply rr_end | simpl in Hn; lia].
  - destruct s as [|c s]; [apply rr_end|].
    destruct (match_at PERSISTENT_UDF_RE p (String c s)) as [m|] eqn:Hm.
    + apply persistent_match in Hm as (ds & nm & post & E & Href & _).
      rewrite E, scan_reference by done. apply rr_reference; [done|]. apply IH.
      apply (f_equal String.length) in E. rewrite !length_app_s in E.
      simpl in E, Hn. destruct Href as ((kw & d & [-> | ->] & -> & _) & _);
        rewrite length_app_s in E; simpl in E; lia.
    + rewrite scan_gap by done. simpl. apply rr_other; [|apply IH; simpl in Hn; lia].
      intros ds nm post E Href.
      rewrite E, (persistent_reference_match p _ _ _ Href) in Hm. done.
Qed.

Lemma rewrites_unique s out :
  rewrites_references s out ->
  forall p, out = render (fun m => group 1 m +:+ "_" +:+ group 2 m)
                         (scan PERSISTENT_UDF_RE p 0 s).
Proof.
  induction 1 as [|ds nm post out Href _ IH|c s out Hno _ IH]; intros p.
  - done.
  - rewrite scan_reference by done. by rewrite <- IH.
  - destruct (match_at PERSISTENT_UDF_RE p (String c s)) as [m|] eqn:Hm.
    + apply persistent_match in Hm as (ds & nm & post & E & Href & _).
      by destruct (Hno ds nm post E).
    + rewrite scan_gap by done. simpl. by rewrite <- IH.
Qed.

(** C3 (as the code has it). [sub_persistent_udf_names_as_temp] rewrites
    every match of [PERSISTENT_UDF_RE], and only these. Reading the text
    from left to right, wherever [udf] or [assert] begins, with any number
    of [UDF_CHAR]s after it, a dot and one [UDF_CHAR] or more, the dot
    becomes an underscore and the reading goes on behind the name; every
    other character stays. The dataset of the reference need not begin
    there: in [xudf.f] the match is [udf.f], and the text becomes [xudf_f];
    in [ds.f] nothing matches. No other text is related to the given one in
    this way. *)
Theorem sub_persistent_rewrites_references text :
  rewrites_references text (sub_persistent_udf_names_as_temp text)
  /\ forall out, rewrites_references text out ->
                 out = sub_persistent_udf_names_as_temp text.
Proof.
  split.
  - by apply (rewrites_scan (String.length text)).
  - intros out H. by apply rewrites_unique.
Qed.

(** References in the middle of a word, one after the other and of other
    datasets. *)
Lemma sub_persistent_examples :
  sub_persistent_udf_names_as_temp "SELECT udf.f(1);" = "SELECT udf_f(1);"
  /\ sub_persistent_udf_names_as_temp "SELECT xudf.f(1);" = "SELECT xudf_f(1);"
  /\ sub_persistent_udf_names_as_temp "udf.a(udf_js.b(assert.c(ds.d)))"
     = "udf_a(udf_js_b(assert_c(ds.d)))".
Proof. repeat split; vm_compute; reflexivity. Qed.

(** ** The rule of UDF_NAME_RE *)

Lemma udf_name_re_rule s : is_Some (re_match UDF_NAME_RE s) <-> identifier_rule s.
Proof.
  unfold re_match. rewrite is_Some_match_at.
  pose proof (accepts_seq _ _ _ _
    (accepts_opt _ _ (accepts_group 1 _ _
       (accepts_seq _ _ _ _ (accepts_plus_set word_char) (accepts_set (Ascii.eqb ".")))))
    (accepts_seq _ _ _ _ (accepts_set alpha)
       (accepts_seq _ _ _ _ (accepts_upto_set word_char 255) accepts_eol))) as Hacc.
  assert (forall t, reach UDF_NAME_RE (MState 0 s []) t
               <-> reach (ROpt (RGroup 1 (RPlus (RSet word_char) ⋅ RChar "."))
                        ⋅ RSet alpha ⋅ RUpto 255 (RSet word_char) ⋅ REol)
                       (MState 0 s []) t) as Hbol.
  { intros t. unfold reach, UDF_NAME_RE. rewrite matches_seq.
    change (matches RBol (MState 0 s [])) with [MState 0 s []].
    by rewrite bind_singleton. }
  split.
  - intros (t & Ht). apply Hbol, Hacc in Ht. simpl in Ht.
    destruct Ht as (u & Hpre & v & (c & -> & Hc) & w & (l & Hlen & Hl & ->) & -> & He).
    destruct Hpre as [(u' & (d & Hne & Hd & ->) & c' & -> & ->%eqb_dot) | ->].
    + exists (d +:+ "."), (String c l), t. split; [by rewrite !app_assoc_s|].
      split; [right; by exists d|]. split; [by exists c, l | done].
    + exists "", (String c l), t. split; [done|].
      split; [by left|]. split; [by exists c, l | done].
  - intros (p & i & e & -> & Hp & (c & l & -> & Hc & Hl & Hlen) & He).
    exists e. apply Hbol, Hacc. simpl.
    exists (String c l +:+ e). split.
    + destruct Hp as [-> | (d & -> & Hne & Hd)]; [by right|]. left.
      exists ("." +:+ String c l +:+ e). split.
      * exists d. by rewrite !app_assoc_s.
      * by exists "."%char.
    + exists (l +:+ e). split; [by exists c|].
      exists e. split; [by exists l | done].
Qed.

(** ** from_text: the names *)

(** The white space of [str.split] is more than that of ASCII: a no-break
    space and a NEL set words apart as a space does. *)
Lemma normalized_white_space :
  normalized ("CREATE  OR" +:+ String "160" ("REPLACE" +:+ String "133" "FUNCTION f"))
  = "create or replace function f".
Proof. reflexivity. Qed.

Lemma invalid_msg_first n : first_char (invalid_msg n) = Some "I"%char.
Proof. reflexivity. Qed.

Lemma expected_msg_first pn tn : first_char (expected_msg pn tn) = Some "E"%char.
Proof. reflexivity. Qed.

Lemma check_name_defined pn tn n :
  check_name true pn tn tt (Some n)
  = if bool_decide (is_Some (re_match UDF_NAME_RE n)) then Ret tt
    else Raise (ValueError (invalid_msg n)).
Proof. unfold check_name. simpl. by destruct (bool_decide _). Qed.

Section from_text_names.
Context (sqlparse_format : string -> string).
Context (sqlparse_split : string -> list string).
Context (mozfun_files : list (string * string * string)).

(** C9 (as the code has it). With [is_defined=True], [from_text] raises the
    error for an invalid name exactly when the name of the directory or the
    resolved internal name fails the rule of [UDF_NAME_RE]: an optional
    dataset prefix of letters, digits and underscores that ends in a dot,
    then a leading letter, then only letters, digits and underscores, the
    part after the prefix being 256 characters long at most (the prefix is
    not counted, and the [$] of the pattern lets a final newline pass).
    Names that satisfy the rule pass the check. *)
Theorem from_text_invalid_name text dataset name filepath description :
  (exists n, from_text sqlparse_format sqlparse_split mozfun_files
               text dataset name filepath description true
             = Raise (ValueError (invalid_msg n)))
  <-> ~ identifier_rule name
      \/ exists n, internal_name_of sqlparse_format sqlparse_split text dataset name
                   = Some n /\ ~ identifier_rule n.
Proof.
  unfold from_text.
  fold (statements_of sqlparse_format sqlparse_split text).
  fold (internal_name_of sqlparse_format sqlparse_split text dataset name).
  rewrite !foldM_cons, check_name_defined.
  destruct (bool_decide_reflect (is_Some (re_match UDF_NAME_RE name))) as [Hn|Hn];
    rewrite udf_name_re_rule in Hn.
  2: { split; [by left | intros _; by exists name]. }
  rewrite bind_Ret.
  destruct (internal_name_of _ _ text dataset name) as [n|] eqn:Hint.
  2: { split.
       - intros (n & H). exfalso.
         change (@Raise RawUdf (ValueError (expected_msg (dataset +:+ "." +:+ name)
                                                          (dataset +:+ "_" +:+ name)))
                 = Raise (ValueError (invalid_msg n))) in H.
         assert (first_char (expected_msg (dataset +:+ "." +:+ name)
                                          (dataset +:+ "_" +:+ name))
                 = first_char (invalid_msg n)) as H' by congruence.
         discriminate H'.
       - intros [?|(n & ? & _)]; done. }
  cbv beta. rewrite foldM_cons, check_name_defined.
  destruct (bool_decide_reflect (is_Some (re_match UDF_NAME_RE n))) as [Hi|Hi];
    rewrite udf_name_re_rule in Hi.
  2: { split; [right; by exists n | intros _; by exists n]. }
  split.
  - intros (n' & H). exfalso. simpl in H.
    destruct (list_remove n _) as [deps|e] eqn:Hrem; simpl in H; [done|].
    apply list_remove_raise in Hrem as ->.
    assert (first_char "list.remove(x): x not in list" = first_char (invalid_msg n'))
      as H' by congruence.
    discriminate H'.
  - intros [?|(n' & [= <-] & ?)]; done.
Qed.

End from_text_names.

(** ** udf_usages_in_text *)

Section usages.
Context (sqlparse_format : string -> string).
Context (mozfun_files : list (string * string * string)).

Lemma mozfun_name_dot routine :
  routine ∈ MOZFUN_ROUTINES mozfun_files ->
  has_char "." (routine_name routine) = true.
Proof.
  unfold MOZFUN_ROUTINES.
  intros (((parent & base) & filename) & -> & _)%list_elem_of_fmap.
  simpl. apply has_char_dot.
Qed.

Lemma usages_loop sql (P : string -> Prop) routines : forall udf_usages,
  Forall P udf_usages -> Forall (fun r => P (routine_name r)) routines ->
  Forall P (foldl (fun udf_usages routine =>
                     if contains (routine_name routine) sql
                     then udf_usages ++ [routine_name routine] else udf_usages)
                  udf_usages routines).
Proof.
  induction routines as [|r routines IH]; intros us Hus Hrs; [done|].
  apply Forall_cons in Hrs as [Hr Hrs]. simpl. apply IH; [|done].
  destruct (contains _ _); [|done]. apply Forall_app. split; [done|]. by constructor.
Qed.

(** X20. The filter of [udf_usages_in_text] does its work: whatever the
    text, [udf_js] is not among the usages it returns. *)
Lemma udf_usages_in_text_no_udf_js text :
  "udf_js" ∉ udf_usages_in_text sqlparse_format mozfun_files text.
Proof.
  unfold udf_usages_in_text. rewrite elem_of_sorted_set.
  intros H. eapply (proj1 (Forall_forall (fun u => u <> "udf_js") _)); [|exact H|done].
  apply usages_loop.
  - apply Forall_app. split.
    + apply Forall_fmap, Forall_forall. intros [g1 g2] _ E. simpl in E.
      apply (f_equal (has_char ".")) in E. by rewrite has_char_dot in E.
    + apply Forall_forall. intros u Hu%list_elem_of_In%filter_In.
      destruct Hu as [_ Hu]. intros ->. done.
  - apply Forall_forall. intros r Hr%mozfun_name_dot E.
    rewrite E in Hr. done.
Qed.

End usages.

Lemma from_text_invalid_name_witness :
  ~ identifier_rule "1f"
  \/ exists n, internal_name_of no_comments split_statements "SELECT 1;" "udf" "1f"
               = Some n /\ ~ identifier_rule n.
Proof.
  apply (from_text_invalid_name no_comments split_statements []
           "SELECT 1;" "udf" "1f" None "").
  exists "1f". vm_compute. reflexivity.
Defined.

(** C9 as stated fails: with its dataset prefix the internal name
    [udf.aaa...a] (256 letters after the dot) is 260 characters long, more
    than the 256 that the rule allows as the total length, and [from_text]
    accepts it. *)
Lemma from_text_accepts_long_qualified_name :
  ~ spec_identifier_rule ("udf." +:+ long_name)
  /\ exists r,
       from_text no_comments split_statements []
         ("CREATE OR REPLACE FUNCTION udf." +:+ long_name +:+ "() AS (1);")
         "udf" long_name None "" true = Ret r
       /\ name r = "udf." +:+ long_name.
Proof.
  split.
  - intros [Hlen _].
    assert (String.length ("udf." +:+ long_name) = 260) as E
      by (vm_compute; reflexivity).
    lia.
  - eexists. split; [vm_compute; reflexivity | reflexivity].
Qed.

(** ** from_text: spans that are not closed *)

Section span.
Context (pn tn : string).

Lemma classify_prefix pre X Y l i s :
  i < length pre -> (-1 <= l_procedure_start l)%Z ->
  classify (pre ++ X) pn tn l i s = classify (pre ++ Y) pn tn l i s.
Proof.
  intros Hi Hps. unfold classify.
  repeat (destruct (startswith (normalized s) _); [reflexivity|]).
  destruct ((_ >? -1)%Z && endswith (normalized s) "end;") eqn:E; [|done].
  apply andb_true_iff in E as [E _]. apply Z.gtb_lt in E.
  rewrite !slice_app by lia. done.
Qed.

Lemma classify_start S l i s :
  (-1 <= l_procedure_start l)%Z ->
  (-1 <= l_procedure_start (classify S pn tn l i s))%Z.
Proof.
  intros H. unfold classify.
  repeat (destruct (startswith (normalized s) _); simpl; try done; try lia);
  destruct (endswith (normalized s) "end;"); simpl; try lia;
  repeat (destruct (_ >? -1)%Z; simpl; try lia).
Qed.

Lemma classify_all_prefix pre X Y : forall todo i l,
  i + length todo <= length pre -> (-1 <= l_procedure_start l)%Z ->
  classify_all (pre ++ X) pn tn i l todo
  = classify_all (pre ++ Y) pn tn i l todo.
Proof.
  induction todo as [|s todo IH]; intros i l Hi Hps; [done|]. simpl in *.
  rewrite (classify_prefix pre X Y) by (done || lia).
  apply IH; [lia | by apply classify_start].
Qed.

Lemma classify_all_app S : forall p q i l,
  classify_all S pn tn i l (p ++ q)
  = classify_all S pn tn (i + length p) (classify_all S pn tn i l p) q.
Proof.
  induction p as [|s p IH]; intros q i l; simpl.
  - by rewrite Nat.add_0_r.
  - rewrite IH. f_equal. lia.
Qed.

Lemma classify_all_start S : forall todo i l,
  (-1 <= l_procedure_start l)%Z ->
  (-1 <= l_procedure_start (classify_all S pn tn i l todo))%Z.
Proof.
  induction todo as [|s todo IH]; intros i l H; [done|]. simpl.
  by apply IH, classify_start.
Qed.

(** A definition is classified alike at any index, in any sequence and
    whether a span is open or not. *)
Lemma classify_definition S S' l l' i i' s :
  is_definition s = true -> same_result l l' ->
  same_result (classify S pn tn l i s) (classify S' pn tn l' i' s)
  /\ l_procedure_start (classify S pn tn l i s) = l_procedure_start l.
Proof.
  unfold is_definition, classify. intros Hs (H1 & H2 & H3 & H4). revert Hs.
  repeat (destruct (startswith (normalized s) _);
          [intros _; unfold same_result; simpl;
           rewrite ?H1, ?H2, ?H3, ?H4; by repeat split |]).
  done.
Qed.

(** Inside an open span, a statement that is no definition and does not end
    the span leaves no trace. *)
Lemma classify_inside S l i s :
  is_definition s = false -> endswith (normalized s) "end;" = false ->
  (0 <= l_procedure_start l)%Z ->
  same_result (classify S pn tn l i s) l
  /\ (0 <= l_procedure_start (classify S pn tn l i s))%Z.
Proof.
  unfold is_definition, classify. intros Hs He Hps.
  apply orb_false_iff in Hs as [Hs ->]. apply orb_false_iff in Hs as [-> ->].
  rewrite He, andb_false_r.
  destruct (startswith (normalized s) "begin"); simpl.
  - destruct (Z.of_nat i =? -1)%Z eqn:E; [apply Z.eqb_eq in E; lia|].
    split; [done | simpl; lia].
  - destruct (l_procedure_start l =? -1)%Z eqn:E; [apply Z.eqb_eq in E; lia|].
    by split.
Qed.

Lemma startswith_begin n :
  startswith n "begin" = true ->
  startswith n "create or replace function" = false /\
  startswith n "create temp function" = false /\
  startswith n "create or replace procedure" = false.
Proof.
  destruct n as [|c n]; [done|]. rewrite !startswith_cons.
  destruct (Ascii.eqb_spec "b" c) as [<-|]; [intros _; by vm_compute | done].
Qed.

(** The statement that opens a span. *)
Lemma classify_begin S l i s :
  startswith (normalized s) "begin" = true ->
  endswith (normalized s) "end;" = false ->
  (-1 <= l_procedure_start l)%Z ->
  same_result (classify S pn tn l i s) l
  /\ (0 <= l_procedure_start (classify S pn tn l i s))%Z.
Proof.
  intros Hb He Hps. unfold classify.
  destruct (startswith_begin _ Hb) as (-> & -> & ->).
  rewrite Hb, He, andb_false_r.
  destruct (Z.of_nat i =? -1)%Z eqn:E; [apply Z.eqb_eq in E; lia|].
  simpl. split; [done | lia].
Qed.

Lemma classify_all_span S S' : forall more i i' l l',
  Forall (fun s => is_definition s = false ->
                   endswith (normalized s) "end;" = false) more ->
  (0 <= l_procedure_start l)%Z -> same_result l l' ->
  same_result (classify_all S pn tn i l more)
              (classify_all S' pn tn i' l' (List.filter is_definition more)).
Proof.
  induction more as [|s more IH]; intros i i' l l' Hall Hps Hsame; [done|].
  apply Forall_cons in Hall as [He Hall]. simpl.
  destruct (is_definition s) eqn:Hs; simpl.
  - destruct (classify_definition S S' l l' i i' s Hs Hsame) as [Hsame' Hps'].
    apply IH; [done | lia | done].
  - destruct (classify_inside S l i s Hs (He eq_refl) Hps) as [(H1 & H2 & H3 & H4) Hps'].
    destruct Hsame as (G1 & G2 & G3 & G4).
    apply IH; [done | done | repeat split; congruence].
Qed.
End span.

Section from_text_span.
Context (sqlparse_format : string -> string).
Context (sqlparse_split : string -> list string).
Context (mozfun_files : list (string * string * string)).

(** C5 (as the code has it). A span that a statement beginning with [begin]
    opens and that is not closed (the statement does not itself end with
    [end;], and neither does any later statement that is no definition: a
    definition closes no span, whatever its end) is no error for
    [from_text]: the call returns, or raises, just as it does for a text
    without the statement that opens the span and without the statements
    after it that are no definitions. None of them reaches the tests. *)
Theorem unterminated_span_dropped text text' dataset name filepath description
    is_defined pre b more :
  statements_of sqlparse_format sqlparse_split text = pre ++ b :: more ->
  startswith (normalized b) "begin" = true ->
  endswith (normalized b) "end;" = false ->
  Forall (fun s => is_definition s = false ->
                   endswith (normalized s) "end;" = false) more ->
  statements_of sqlparse_format sqlparse_split text'
  = pre ++ List.filter is_definition more ->
  from_text sqlparse_format sqlparse_split mozfun_files
            text dataset name filepath description is_defined
  = from_text sqlparse_format sqlparse_split mozfun_files
              text' dataset name filepath description is_defined.
Proof.
  intros Htext Hb He Hall Htext'.
  unfold from_text.
  fold (statements_of sqlparse_format sqlparse_split text)
       (statements_of sqlparse_format sqlparse_split text').
  rewrite Htext, Htext'.
  set (pn := dataset +:+ "." +:+ name). set (tn := dataset +:+ "_" +:+ name).
  set (l0 := Locals None false [] [] (-1)).
  set (S := pre ++ b :: more). set (S' := pre ++ List.filter is_definition more).
  assert (same_result (classify_all S pn tn 0 l0 S) (classify_all S' pn tn 0 l0 S'))
    as (H1 & H2 & H3 & H4).
  { unfold S at 2, S' at 2. rewrite !classify_all_app. simpl.
    assert (classify_all S pn tn 0 l0 pre = classify_all S' pn tn 0 l0 pre) as Hpre.
    { apply classify_all_prefix; [lia | simpl; lia]. }
    assert (-1 <= l_procedure_start (classify_all S' pn tn 0 l0 pre))%Z as Hps.
    { apply classify_all_start. simpl. lia. }
    rewrite Hpre. set (l1 := classify_all S' pn tn 0 l0 pre) in *.
    destruct (classify_begin pn tn S l1 (0 + length pre) b Hb He Hps) as [Hsame Hps'].
    by apply classify_all_span. }
  by rewrite H1, H3, H4, H2.
Qed.
End from_text_span.

Lemma unterminated_span_dropped_witness :
  from_text no_comments split_statements []
    ("CREATE OR REPLACE FUNCTION udf.f() AS (1); BEGIN SELECT 1; SELECT 2; "
     +:+ "CREATE OR REPLACE PROCEDURE udf.p() BEGIN END;")
    "udf" "f" None "" true
  = from_text no_comments split_statements []
      ("CREATE OR REPLACE FUNCTION udf.f() AS (1); "
       +:+ "CREATE OR REPLACE PROCEDURE udf.p() BEGIN END;")
      "udf" "f" None "" true.
Proof.
  apply (unterminated_span_dropped no_comments split_statements [] _ _
           "udf" "f" None "" true
           ["CREATE OR REPLACE FUNCTION udf.f() AS (1);"] "BEGIN SELECT 1;"
           ["SELECT 2;"; "CREATE OR REPLACE PROCEDURE udf.p() BEGIN END;"]).
  - vm_compute. reflexivity.
  - vm_compute. reflexivity.
  - vm_compute. reflexivity.
  - constructor; [intros _; vm_compute; reflexivity|].
    constructor; [intros H; vm_compute in H; discriminate H|]. constructor.
  - vm_compute. reflexivity.
Defined.

(** C5 as stated fails: the text below opens a span with [BEGIN SELECT 1;]
    that nothing closes, and [from_text] returns a record, the tests of
    which are empty. *)
Lemma from_text_drops_unterminated_span :
  from_text no_comments split_statements []
    "CREATE OR REPLACE FUNCTION udf.f() AS (1); BEGIN SELECT 1;"
    "udf" "f" None "" true
  = Ret (mkRawUdf "udf.f" "udf" None
           ["CREATE OR REPLACE FUNCTION udf.f() AS (1);"] [] [] "" false).
Proof. vm_compute. reflexivity. Qed.

(** ** The definitions before a test *)

Section rewrite.
Context (sqlparse_format : string -> string).
Context (mozfun_files : list (string * string * string)).
Context (raw_udfs : gmap string RawUdf).

Lemma collect_definitions text deps : forall out,
  Forall (fun x => is_Some (raw_udfs !! x)) deps ->
  foldM (fun out udf_name =>
           raw_udf ← getitem raw_udfs udf_name;
           Ret (out ++ List.filter (fun statement => negb (contains statement text))
                                   (definitions raw_udf)))
        out deps
  = Ret (out ++ concat (missing_definitions raw_udfs text <$> deps)).
Proof.
  induction deps as [|x deps IH]; intros out Hall.
  - simpl. by rewrite app_nil_r.
  - apply Forall_cons in Hall as [[r Hr] Hall'].
    rewrite foldM_cons. cbv beta.
    assert (getitem raw_udfs x = Ret r) as -> by (unfold getitem; by rewrite Hr).
    rewrite !bind_Ret, IH by done.
    rewrite fmap_cons. unfold missing_definitions at 2. rewrite Hr.
    simpl. by rewrite <- app_assoc.
Qed.


Lemma usages_dependencies limit text deps :
  foldM (fun deps udf_usage => accumulate_dependencies limit deps raw_udfs udf_usage)
        [] (udf_usages_in_text sqlparse_format mozfun_files text) = Ret deps ->
  extends raw_udfs [] deps /\ dep_first raw_udfs deps /\
  forall a, a ∈ udf_usages_in_text sqlparse_format mozfun_files text ->
       is_Some (raw_udfs !! a) -> a ∈ deps.
Proof.
  intros H. repeat split.
  - revert H. apply foldM_inv; [apply extends_refl | apply extends_trans |].
    intros ???? Hf. eapply accumulate_extends. exact Hf.
  - assert (dep_first raw_udfs []) as H0 by (intros ??? Ha; inversion Ha).
    revert H0. revert H.
    apply (foldM_inv (fun d d' => dep_first raw_udfs d -> dep_first raw_udfs d'));
      [auto | auto |].
    intros ???? Hf. eapply accumulate_dep_first. exact Hf.
  - intros a Ha. revert a Ha.
    eapply (foldM_elem (fun b d => is_Some (raw_udfs !! b) -> b ∈ d)); [ | | exact H].
    + intros d b d' Hf Hs. eapply accumulate_elem; [exact Hf | done].
    + intros d b d' c Hf Hc Hsome.
      eapply extends_elem; [eapply accumulate_extends; exact Hf | auto].
Qed.

Lemma usages_return limit text :
  acyclic raw_udfs -> size raw_udfs < limit ->
  exists deps,
    foldM (fun deps udf_usage => accumulate_dependencies limit deps raw_udfs udf_usage)
          [] (udf_usages_in_text sqlparse_format mozfun_files text) = Ret deps.
Proof.
  intros Hac Hlim. generalize (@nil string) as d.
  induction (udf_usages_in_text sqlparse_format mozfun_files text) as [|u us IH];
    intros d; simpl; [by eexists|].
  destruct (accumulate_returns raw_udfs limit d u Hac Hlim) as [d' ->]. simpl. apply IH.
Qed.

Context (re_sub_other : string -> string -> string -> result string).

Lemma sub_local_routines_eq limit test sql :
  prepend_udf_usage_definitions sqlparse_format mozfun_files limit test raw_udfs
  = Ret sql ->
  sub_local_routines sqlparse_format mozfun_files re_sub_other limit test raw_udfs
  = rewrite_names mozfun_files re_sub_other sql.
Proof. intros H. unfold sub_local_routines. by rewrite H. Qed.

End rewrite.

Lemma sample_catalog_depends a b :
  depends sample_catalog a b -> a = "udf.a" /\ b = "udf.b".
Proof.
  intros (r & Hr & Hb). unfold sample_catalog in Hr.
  apply lookup_insert_Some in Hr as [[<- <-] | [_ Hr]].
  - simpl in Hb. by apply list_elem_of_singleton in Hb as ->.
  - apply lookup_singleton_Some in Hr as [<- <-]. simpl in Hb. inversion Hb.
Qed.

Lemma sample_catalog_acyclic : acyclic sample_catalog.
Proof.
  intros a Ha. unfold on_cycle in Ha.
  assert (forall x y, tc (depends sample_catalog) x y -> y = "udf.b") as Hend.
  { induction 1 as [x y H | x y z H _ IH]; [|done].
    by destruct (sample_catalog_depends _ _ H). }
  pose proof (Hend _ _ Ha) as ->.
  inversion Ha as [x y H | x y z H _]; subst;
    by destruct (sample_catalog_depends _ _ H).
Qed.



(** Where the substitutions find nothing to rewrite, as with a catalog of
    temporary functions, the definitions and the test are in the text as
    they were given. *)
Lemma sub_local_routines_temp_catalog :
  sub_local_routines no_comments [] no_other_pattern 3 "SELECT udf_a();"
    {[ "udf_a" := mkRawUdf "udf_a" "udf" None
                    ["CREATE TEMP FUNCTION udf_a() AS (udf_b());"] []
                    ["udf_b"] "" false;
       "udf_b" := mkRawUdf "udf_b" "udf" None
                    ["CREATE TEMP FUNCTION udf_b() AS (1);"] [] [] "" false ]}
  = Ret ("CREATE TEMP FUNCTION udf_b() AS (1);" +:+ NL +:+ NL
         +:+ "CREATE TEMP FUNCTION udf_a() AS (udf_b());" +:+ NL +:+ NL
         +:+ "SELECT udf_a();").
Proof. vm_compute. reflexivity. Qed.

(** ** What the code does where the specification says otherwise *)

(** C2. [dependencies.remove(internal_name)] drops one occurrence and the
    duplicates go only afterwards: a definition that names its own routine
    twice keeps the routine among its dependencies. *)
Theorem from_text_keeps_self_reference :
  exists r,
    from_text no_comments split_statements []
      "CREATE OR REPLACE FUNCTION udf.f() AS (udf.f());" "udf" "f" None "" true
    = Ret r
    /\ name r = "udf.f" /\ dependencies r = ["udf.f"].
Proof. eexists. split; [vm_compute; reflexivity | split; reflexivity]. Qed.

(** Without a definition of the routine in the text, [from_text] raises
    whether [is_defined] is set or not. *)
Lemma from_text_undefined_raises sqlparse_format sqlparse_split mozfun_files
    text dataset name filepath description is_defined :
  internal_name_of sqlparse_format sqlparse_split text dataset name = None ->
  exists msg,
    from_text sqlparse_format sqlparse_split mozfun_files
      text dataset name filepath description is_defined
    = Raise (ValueError msg).
Proof.
  intros Hnone. unfold from_text.
  fold (statements_of sqlparse_format sqlparse_split text).
  fold (internal_name_of sqlparse_format sqlparse_split text dataset name).
  rewrite Hnone, foldM_cons.
  destruct (check_name is_defined _ _ tt (Some name)) as [[]|e] eqn:E.
  - rewrite bind_Ret. by eexists.
  - unfold check_name in E. destruct (andb is_defined _); [|done].
    injection E as <-. by eexists.
Qed.

(** C4. With [is_defined=False], a text that holds no definition of the
    routine still makes [from_text] raise the error that names the expected
    persistent and temporary forms. *)
Theorem from_text_requires_definition :
  from_text no_comments split_statements [] "SELECT 1;" "udf" "f" None "" false
  = Raise (ValueError "Expected a function named udf.f or udf_f to be defined").
Proof. vm_compute. reflexivity. Qed.

(** C6. [from_text] has no filter for [udf_js]: a definition that calls
    [udf_js.g] gets [udf_js] among its dependencies. *)
Theorem from_text_reports_udf_js :
  exists r,
    from_text no_comments split_statements []
      "CREATE OR REPLACE FUNCTION udf.f() AS (udf_js.g());" "udf" "f" None "" true
    = Ret r
    /\ dependencies r = ["udf_js"; "udf_js.g"].
Proof. eexists. split; [vm_compute; reflexivity | reflexivity]. Qed.

(** C8. A mozfun procedure of a dataset that begins with [assert] has its
    name rewritten by [sub_persistent_udf_names_as_temp] before the loop
    over [MOZFUN_ROUTINES] looks for it: the name gets its underscore and no
    generic dataset. A procedure of another dataset gets both. *)
Theorem sub_local_routines_misses_generic_dataset re_sub_other :
  sub_local_routines no_comments [("assert", "p", PROCEDURE_FILE)] re_sub_other 3
    "CALL assert.p();" ∅
  = Ret "CALL assert_p();"
  /\ sub_local_routines no_comments
       [("event_analysis", "create_funnel", PROCEDURE_FILE)] re_sub_other 3
       "CALL event_analysis.create_funnel();" ∅
     = Ret "CALL _generic_dataset_.event_analysis_create_funnel();".
Proof. split; vm_compute; reflexivity. Qed.

(** The name that replaces a mozfun routine: its name with the dots turned
    into underscores, after the generic dataset and a dot when the routine
    is a procedure. *)
Lemma replace_name_spec routine :
  replace_name routine
  = (if is_udf routine then "" else GENERIC_DATASET +:+ ".")
    +:+ replace "." "_" (routine_name routine).
Proof. unfold replace_name. by destruct (is_udf routine). Qed.

(** * Further properties of the module *)

Section closure.
Context (raw_udfs : gmap string RawUdf).

Lemma dep_first_closed l : dep_first raw_udfs l -> closed raw_udfs l.
Proof.
  intros H a r b Ha Hr Hb Hc. destruct (H a r b Ha Hr Hb Hc) as (l1 & l2 & l3 & ->).
  apply elem_of_app. right. apply elem_of_app. left. by left.
Qed.

Lemma dep_first_nil : dep_first raw_udfs [].
Proof. intros a r b Ha. inversion Ha. Qed.

Lemma accumulate_sound limit : forall deps a l,
  accumulate_dependencies limit deps raw_udfs a = Ret l ->
  forall x, x ∈ l ->
    x ∈ deps \/ (is_Some (raw_udfs !! a) /\ rtc (depends_in raw_udfs) a x).
Proof.
  induction limit as [|limit IH]; intros deps a l H x Hx; simpl in H; [done|].
  destruct (raw_udfs !! a) as [r|] eqn:Hr; [|injection H as <-; by left].
  destruct (foldM _ deps (dependencies r)) as [deps'|e] eqn:Hloop;
    simpl in H; [|done].
  assert (forall y, y ∈ deps' -> y ∈ deps \/
            exists b, b ∈ dependencies r /\ is_Some (raw_udfs !! b)
                      /\ rtc (depends_in raw_udfs) b y) as Hloop'.
  { revert Hloop.
    apply (foldM_inv (fun d d' => forall y, y ∈ d' -> y ∈ d \/
             exists b, b ∈ dependencies r /\ is_Some (raw_udfs !! b)
                       /\ rtc (depends_in raw_udfs) b y)).
    - intros d y Hy. by left.
    - intros d1 d2 d3 H12 H23 y Hy. destruct (H23 y Hy) as [Hy'|Hy']; [auto | by right].
    - intros d b d' Hb Hf y Hy. destruct (IH _ _ _ Hf y Hy) as [?|[Hs Hrtc]]; [by left|].
      right. by exists b. }
  assert (x ∈ deps' \/ x = a) as [Hx'|Hx'].
  { destruct (mem a deps'); injection H as <-; [by left|].
    apply elem_of_app in Hx as [?|Hx]; [by left|]. right.
    by apply list_elem_of_singleton in Hx. }
  - destruct (Hloop' x Hx') as [?|(b & Hb & Hs & Hrtc)]; [by left|]. right.
    split; [done|]. eapply rtc_l; [|done]. split; [by exists r | done].
  - subst x. right. split; [done | constructor].
Qed.

Lemma closed_reach l a y :
  closed raw_udfs l -> a ∈ l -> rtc (depends_in raw_udfs) a y -> y ∈ l.
Proof.
  intros Hcl Ha Hrtc. induction Hrtc as [a | a b y [(r & Hr & Hb) Hs] _ IH]; [done|].
  apply IH. by eapply Hcl.
Qed.

(** Whether a call returns depends on the room of the stack, the catalog and
    the name, not on the list it is given. *)
Lemma accumulate_returns_any limit : forall d1 d2 a l1,
  accumulate_dependencies limit d1 raw_udfs a = Ret l1 ->
  exists l2, accumulate_dependencies limit d2 raw_udfs a = Ret l2.
Proof.
  induction limit as [|limit IH]; intros d1 d2 a l1 H; simpl in *; [done|].
  destruct (raw_udfs !! a) as [r|]; [|by eexists].
  destruct (foldM _ d1 (dependencies r)) as [d1'|e] eqn:Hloop; simpl in H; [|done].
  clear H. assert (exists d2', foldM (fun deps dep =>
             accumulate_dependencies limit deps raw_udfs dep) d2 (dependencies r)
           = Ret d2') as [d2' ->].
  { revert d1 d2 d1' Hloop. induction (dependencies r) as [|b bs IHbs];
      intros d1 d2 d1' Hloop; [by eexists|].
    rewrite foldM_cons in *.
    destruct (accumulate_dependencies limit d1 raw_udfs b) as [d1b|] eqn:Hb;
      simpl in Hloop; [|done].
    destruct (IH _ d2 _ _ Hb) as [d2b ->]. rewrite bind_Ret. eauto. }
  rewrite bind_Ret. destruct (mem a d2'); by eexists.
Qed.

Lemma accumulate_absorbs limit : forall deps a l,
  accumulate_dependencies limit deps raw_udfs a = Ret l ->
  closed raw_udfs deps -> (is_Some (raw_udfs !! a) -> a ∈ deps) -> l = deps.
Proof.
  induction limit as [|limit IH]; intros deps a l H Hcl Ha; simpl in H; [done|].
  destruct (raw_udfs !! a) as [r|] eqn:Hr; [|by injection H as <-].
  destruct (foldM _ deps (dependencies r)) as [deps'|e] eqn:Hloop;
    simpl in H; [|done].
  assert (deps' = deps) as ->.
  { revert Hloop. generalize (eq_refl deps). generalize deps at 1 3 as d.
    intros d Hd Hloop. revert Hd. revert Hloop.
    apply (foldM_inv (fun d d' => d = deps -> d' = deps)); [auto | auto |].
    intros d0 b d' Hb Hf ->. eapply IH; [exact Hf | done |].
    intros Hs. eapply Hcl; [apply Ha; eauto | done..]. }
  rewrite (proj2 (mem_elem_of a deps)) in H by eauto. by injection H as <-.
Qed.
End closure.

(** X1. Starting from the empty list, the list returned for a routine of the
    catalog holds exactly the routines of the catalog that the routine
    reaches through dependencies that are in the catalog, itself
    included. *)
Theorem accumulate_dependencies_closure limit raw_udfs udf_name l :
  accumulate_dependencies limit [] raw_udfs udf_name = Ret l ->
  is_Some (raw_udfs !! udf_name) ->
  forall x, x ∈ l <-> rtc (depends_in raw_udfs) udf_name x.
Proof.
  intros H Hs x. split.
  - intros Hx. destruct (accumulate_sound _ _ _ _ _ H x Hx) as [Hnil|[_ ?]]; [|done].
    inversion Hnil.
  - apply closed_reach.
    + eapply dep_first_closed, accumulate_dep_first; [exact H | apply dep_first_nil].
    + by eapply accumulate_elem.
Qed.

Lemma accumulate_dependencies_closure_witness :
  "udf.b" ∈ ["udf.b"; "udf.a"] <-> rtc (depends_in sample_catalog) "udf.a" "udf.b".
Proof.
  apply (accumulate_dependencies_closure 3 sample_catalog "udf.a").
  - vm_compute. reflexivity.
  - eexists. reflexivity.
Defined.

(** X2. In the list returned from the empty list every routine comes after
    the dependencies it has in the catalog. *)
Theorem accumulate_dependencies_order limit raw_udfs udf_name l :
  accumulate_dependencies limit [] raw_udfs udf_name = Ret l ->
  dep_first raw_udfs l.
Proof.
  intros H. eapply accumulate_dep_first; [exact H | apply dep_first_nil].
Qed.

Lemma accumulate_dependencies_order_witness :
  dep_first sample_catalog ["udf.b"; "udf.a"].
Proof.
  apply (accumulate_dependencies_order 3 sample_catalog "udf.a").
  vm_compute. reflexivity.
Defined.

(** X3. On a catalog without cycles a call returns, whatever the list and
    the name, as soon as the stack has room for one call more than the
    catalog has routines. *)
Theorem accumulate_dependencies_terminates limit deps raw_udfs udf_name :
  acyclic raw_udfs -> size raw_udfs < limit ->
  exists l, accumulate_dependencies limit deps raw_udfs udf_name = Ret l.
Proof. apply accumulate_returns. Qed.

(** X4. Resolving a name again adds nothing: given the list that a call
    returned from the empty list, the same call returns that list. *)
Theorem accumulate_dependencies_idempotent limit raw_udfs udf_name l :
  accumulate_dependencies limit [] raw_udfs udf_name = Ret l ->
  accumulate_dependencies limit l raw_udfs udf_name = Ret l.
Proof.
  intros H. destruct (accumulate_returns_any _ _ _ l _ _ H) as [l2 H2].
  rewrite H2. f_equal. eapply accumulate_absorbs; [exact H2 | |].
  - eapply dep_first_closed, accumulate_dep_first; [exact H | apply dep_first_nil].
  - by eapply accumulate_elem.
Qed.

Lemma accumulate_dependencies_idempotent_witness :
  accumulate_dependencies 3 ["udf.b"; "udf.a"] sample_catalog "udf.a"
  = Ret ["udf.b"; "udf.a"].
Proof.
  apply (accumulate_dependencies_idempotent 3 sample_catalog "udf.a").
  vm_compute. reflexivity.
Defined.

Lemma accumulate_dependencies_terminates_witness :
  exists l, accumulate_dependencies 3 [] sample_catalog "udf.a" = Ret l.
Proof.
  apply (accumulate_dependencies_terminates 3 [] sample_catalog "udf.a").
  - exact sample_catalog_acyclic.
  - vm_compute. lia.
Defined.

Lemma elem_of_concat (x : string) ls :
  x ∈ concat ls <-> exists l, l ∈ ls /\ x ∈ l.
Proof.
  rewrite list_elem_of_In, in_concat. split; intros (l & H1 & H2); exists l;
    by rewrite ?list_elem_of_In in *.
Qed.

Section rewrite_more.
Context (sqlparse_format : string -> string).
Context (mozfun_files : list (string * string * string)).
Context (raw_udfs : gmap string RawUdf).

(** The two loops of [udf_usage_definitions]. *)
Lemma udf_usage_definitions_eq limit text deps :
  foldM (fun deps udf_usage => accumulate_dependencies limit deps raw_udfs udf_usage)
        [] (udf_usages_in_text sqlparse_format mozfun_files text) = Ret deps ->
  udf_usage_definitions sqlparse_format mozfun_files limit text raw_udfs
  = Ret (concat (missing_definitions raw_udfs text <$> deps)).
Proof.
  intros H. unfold udf_usage_definitions. rewrite H, bind_Ret.
  destruct (usages_dependencies sqlparse_format mozfun_files raw_udfs _ _ _ H)
    as ((ext & -> & Hall & _) & _).
  by rewrite collect_definitions.
Qed.

Lemma missing_definitions_spec text udf_name s :
  s ∈ missing_definitions raw_udfs text udf_name ->
  contains s text = false /\
  exists raw_udf, raw_udfs !! udf_name = Some raw_udf /\ s ∈ definitions raw_udf.
Proof.
  unfold missing_definitions. destruct (raw_udfs !! udf_name) as [r|]; [|inversion 1].
  intros [Hs Hc]%list_elem_of_In%filter_In. split.
  - by destruct (contains s text).
  - exists r. split; [done | by apply list_elem_of_In].
Qed.

(** The text that [prepend_udf_usage_definitions] returns. *)
Lemma prepend_shape limit text out :
  prepend_udf_usage_definitions sqlparse_format mozfun_files limit text raw_udfs
  = Ret out ->
  exists statements,
    out = lead (NL +:+ NL) statements +:+ text /\
    Forall (fun s => contains s text = false /\
                     exists udf_name raw_udf,
                       raw_udfs !! udf_name = Some raw_udf /\ s ∈ definitions raw_udf)
           statements.
Proof.
  unfold prepend_udf_usage_definitions. intros H.
  destruct (foldM (fun deps udf_usage =>
                     accumulate_dependencies limit deps raw_udfs udf_usage)
                  [] (udf_usages_in_text sqlparse_format mozfun_files text))
    as [deps|e'] eqn:Hdeps.
  2: { unfold udf_usage_definitions in H. by rewrite Hdeps in H. }
  rewrite (udf_usage_definitions_eq _ _ _ Hdeps), bind_Ret in H.
  injection H as <-. eexists. split; [by rewrite join_app|].
  apply Forall_forall.
  intros s (l & (n & -> & _)%list_elem_of_fmap & Hl)%elem_of_concat.
  destruct (missing_definitions_spec _ _ _ Hl) as (Hc & r & Hr & Hd). eauto.
Qed.

End rewrite_more.

(** X5. [udf_usage_definitions] never fails on a look-up: the names it looks
    up are keys of the catalog, and the one exception that can end the call
    is the exhaustion of the call stack. *)
Theorem udf_usage_definitions_no_key_error sqlparse_format mozfun_files
    limit text raw_udfs e :
  udf_usage_definitions sqlparse_format mozfun_files limit text raw_udfs = Raise e ->
  e = RecursionError.
Proof.
  intros H.
  destruct (foldM (fun deps udf_usage =>
                     accumulate_dependencies limit deps raw_udfs udf_usage)
                  [] (udf_usages_in_text sqlparse_format mozfun_files text))
    as [deps|e'] eqn:Hdeps.
  - by rewrite (udf_usage_definitions_eq _ _ _ _ _ _ Hdeps) in H.
  - unfold udf_usage_definitions in H. rewrite Hdeps in H. injection H as <-.
    apply foldM_raise_inv in Hdeps as (d & u & _ & Hu).
    by eapply accumulate_raise.
Qed.

Lemma udf_usage_definitions_no_key_error_witness :
  udf_usage_definitions no_comments [] 5 "SELECT udf.a();" cyclic_catalog
  = Raise RecursionError.
Proof.
  destruct (udf_usage_definitions no_comments [] 5 "SELECT udf.a();" cyclic_catalog)
    as [l|e] eqn:E.
  - vm_compute in E. discriminate E.
  - f_equal.
    exact (udf_usage_definitions_no_key_error no_comments [] 5 "SELECT udf.a();"
             cyclic_catalog e E).
Defined.

(** X6. The text that [prepend_udf_usage_definitions] returns is the given
    text after the statements it prepends, each of them a definition
    statement of a routine of the catalog that the given text does not
    contain. *)
Theorem prepend_udf_usage_definitions_shape sqlparse_format mozfun_files
    limit text raw_udfs out :
  prepend_udf_usage_definitions sqlparse_format mozfun_files limit text raw_udfs
  = Ret out ->
  exists statements,
    out = lead (NL +:+ NL) statements +:+ text /\
    Forall (fun s => contains s text = false /\
                     exists udf_name raw_udf,
                       raw_udfs !! udf_name = Some raw_udf /\ s ∈ definitions raw_udf)
           statements.
Proof. apply prepend_shape. Qed.

Lemma prepend_udf_usage_definitions_shape_witness :
  exists statements,
    (def_b +:+ NL +:+ NL +:+ def_a +:+ NL +:+ NL +:+ "SELECT udf.a();")
    = lead (NL +:+ NL) statements +:+ "SELECT udf.a();" /\
    Forall (fun s => contains s "SELECT udf.a();" = false /\
                     exists udf_name raw_udf,
                       sample_catalog !! udf_name = Some raw_udf
                       /\ s ∈ definitions raw_udf)
           statements.
Proof.
  apply (prepend_udf_usage_definitions_shape no_comments [] 3 "SELECT udf.a();"
           sample_catalog).
  vm_compute. reflexivity.
Defined.

Lemma foldM_fixed {A B} (f : A -> B -> result A) a l :
  (forall b, b ∈ l -> f a b = Ret a) -> foldM f a l = Ret a.
Proof.
  induction l as [|b l IH]; intros H; [done|].
  rewrite foldM_cons, H, bind_Ret by left. apply IH. intros b' Hb'. apply H. by right.
Qed.

(** X7. Names that are not in the catalog are passed over: when no routine
    that the text uses is a key of the catalog, the text is returned as it
    is. *)
Theorem prepend_udf_usage_definitions_unknown sqlparse_format mozfun_files
    limit text raw_udfs :
  0 < limit ->
  (forall u, u ∈ udf_usages_in_text sqlparse_format mozfun_files text ->
             raw_udfs !! u = None) ->
  prepend_udf_usage_definitions sqlparse_format mozfun_files limit text raw_udfs
  = Ret text.
Proof.
  intros Hlim Hnone. unfold prepend_udf_usage_definitions.
  rewrite (udf_usage_definitions_eq _ _ _ _ _ []); [done|].
  apply foldM_fixed. intros u Hu. destruct limit as [|limit]; [lia|].
  simpl. by rewrite (Hnone u Hu).
Qed.

Lemma prepend_udf_usage_definitions_unknown_witness :
  prepend_udf_usage_definitions no_comments [] 1 "SELECT udf.c(), ds.f(1);"
    sample_catalog
  = Ret "SELECT udf.c(), ds.f(1);".
Proof.
  apply (prepend_udf_usage_definitions_unknown no_comments [] 1
           "SELECT udf.c(), ds.f(1);" sample_catalog).
  - lia.
  - intros u Hu. vm_compute in Hu.
    apply list_elem_of_singleton in Hu as ->. reflexivity.
Defined.

Section total.
Context (sqlparse_format : string -> string).
Context (mozfun_files : list (string * string * string)).
Context (re_sub_other : string -> string -> string -> result string).
Context (raw_udfs : gmap string RawUdf).

(** With names that hold no special character, the substitutions are those
    of the patterns translated here and none can fail. *)
Lemma rewrite_names_returns sql :
  plain_registry mozfun_files ->
  exists out, rewrite_names mozfun_files re_sub_other sql = Ret out.
Proof.
  unfold plain_registry, rewrite_names. intros Hplain.
  generalize (sub_persistent_udf_names_as_temp sql) as sql0.
  induction Hplain as [|routine routines Hr _ IH]; intros sql0; [by eexists|].
  rewrite foldM_cons.
  assert (sub_routine_name re_sub_other (routine_name routine)
            (replace_name routine) sql0
          = Ret (re_sub (routine_pattern (routine_name routine))
                        (fun _ => replace_name routine) sql0)) as ->
    by (unfold sub_routine_name; by rewrite Hr).
  destruct (contains (routine_name routine) sql0); rewrite bind_Ret; apply IH.
Qed.

Lemma sub_local_routines_returns limit test :
  acyclic raw_udfs -> size raw_udfs < limit -> plain_registry mozfun_files ->
  exists statements test_sql,
    sub_local_routines sqlparse_format mozfun_files re_sub_other limit test raw_udfs
    = Ret test_sql /\
    rewrite_names mozfun_files re_sub_other (lead (NL +:+ NL) statements +:+ test)
    = Ret test_sql /\
    Forall (fun s => contains s test = false /\
                     exists udf_name raw_udf,
                       raw_udfs !! udf_name = Some raw_udf /\ s ∈ definitions raw_udf)
           statements.
Proof.
  intros Hac Hlim Hplain.
  destruct (usages_return sqlparse_format mozfun_files raw_udfs limit test Hac Hlim)
    as [deps Hdeps].
  pose proof (udf_usage_definitions_eq _ _ _ _ _ _ Hdeps) as Hdefs.
  assert (exists sql, prepend_udf_usage_definitions sqlparse_format mozfun_files
                        limit test raw_udfs = Ret sql) as [sql Hsql].
  { unfold prepend_udf_usage_definitions. rewrite Hdefs, bind_Ret. by eexists. }
  destruct (prepend_shape _ _ _ _ _ _ Hsql) as (statements & -> & Hall).
  destruct (rewrite_names_returns (lead (NL +:+ NL) statements +:+ test) Hplain)
    as [out Hout].
  exists statements, out. split; [|done].
  by rewrite (sub_local_routines_eq _ _ _ _ _ _ _ Hsql).
Qed.

End total.

(** X8. On a catalog without cycles, and with a registry whose names hold no
    special character, the rewriting of the tests of a record cannot fail once
    the stack has room for one call more than the catalog has routines:
    [udf_tests_sql] returns one text for each test, in order, and each is
    what the three substitutions of [sub_local_routines] make of the test
    preceded by definition statements of routines of the catalog that the
    test does not contain, a blank line after each. *)
Theorem udf_tests_sql_returns sqlparse_format mozfun_files re_sub_other limit
    raw_udf raw_udfs :
  acyclic raw_udfs -> size raw_udfs < limit -> plain_registry mozfun_files ->
  exists tests_full_sql,
    udf_tests_sql sqlparse_format mozfun_files re_sub_other limit raw_udf raw_udfs
    = Ret tests_full_sql /\
    Forall2 (fun test test_sql =>
               exists statements,
                 rewrite_names mozfun_files re_sub_other
                   (lead (NL +:+ NL) statements +:+ test) = Ret test_sql /\
                 Forall (fun s => contains s test = false /\
                                  exists udf_name udf,
                                    raw_udfs !! udf_name = Some udf
                                    /\ s ∈ definitions udf)
                        statements)
            (tests raw_udf) tests_full_sql.
Proof.
  intros Hac Hlim Hplain. unfold udf_tests_sql.
  assert (forall done_sql, exists more,
            foldM (fun tests_full_sql test =>
                     test_sql ← sub_local_routines sqlparse_format mozfun_files
                                  re_sub_other limit test raw_udfs;
                     Ret (tests_full_sql ++ [test_sql]))
                  done_sql (tests raw_udf) = Ret (done_sql ++ more) /\
            Forall2 (fun test test_sql =>
                       exists statements,
                         rewrite_names mozfun_files re_sub_other
                           (lead (NL +:+ NL) statements +:+ test) = Ret test_sql /\
                         Forall (fun s => contains s test = false /\
                                          exists udf_name udf,
                                            raw_udfs !! udf_name = Some udf
                                            /\ s ∈ definitions udf)
                                statements)
                    (tests raw_udf) more) as H.
  { induction (tests raw_udf) as [|t ts IH]; intros done_sql.
    - exists []. by rewrite app_nil_r.
    - destruct (sub_local_routines_returns sqlparse_format mozfun_files re_sub_other
                  raw_udfs limit t Hac Hlim Hplain) as (statements & sql & Hsql & Hrw & Hall).
      rewrite foldM_cons, Hsql, !bind_Ret.
      destruct (IH (done_sql ++ [sql])) as (more & -> & Hmore).
      exists (sql :: more). split; [by rewrite <- app_assoc|].
      constructor; [by exists statements | done]. }
  destruct (H []) as (more & -> & Hmore). by exists more.
Qed.

Lemma udf_tests_sql_returns_witness :
  exists tests_full_sql,
    udf_tests_sql no_comments [("norm", "truncate", UDF_FILE)] no_other_pattern 3
      (mkRawUdf "udf.a" "udf" None [def_a] ["SELECT udf.a();"] ["udf.b"] "" false)
      sample_catalog
    = Ret tests_full_sql /\
    Forall2 (fun test test_sql =>
               exists statements,
                 rewrite_names [("norm", "truncate", UDF_FILE)] no_other_pattern
                   (lead (NL +:+ NL) statements +:+ test) = Ret test_sql /\
                 Forall (fun s => contains s test = false /\
                                  exists udf_name udf,
                                    sample_catalog !! udf_name = Some udf
                                    /\ s ∈ definitions udf)
                        statements)
            ["SELECT udf.a();"] tests_full_sql.
Proof.
  apply (udf_tests_sql_returns no_comments [("norm", "truncate", UDF_FILE)]
           no_other_pattern 3
           (mkRawUdf "udf.a" "udf" None [def_a] ["SELECT udf.a();"] ["udf.b"] "" false)
           sample_catalog).
  - exact sample_catalog_acyclic.
  - vm_compute. lia.
  - constructor; [reflexivity | constructor].
Defined.

Lemma startswith_app_differ s p a x b y :
  startswith s (p +:+ String a x) = true ->
  startswith s (p +:+ String b y) = true -> a = b.
Proof.
  revert s. induction p as [|c p IH]; intros [|d s]; try done.
  - change ("" +:+ String a x) with (String a x).
    change ("" +:+ String b y) with (String b y). rewrite !startswith_cons.
    destruct (Ascii.eqb_spec a d), (Ascii.eqb_spec b d); try done. congruence.
  - rewrite !app_cons_s, !startswith_cons. destruct (Ascii.eqb c d); [apply IH | done].
Qed.

Lemma function_not_procedure s :
  startswith (normalized s) "create or replace function" = true ->
  is_procedure_definition s = false.
Proof.
  intros H. unfold is_procedure_definition.
  destruct (startswith (normalized s) "create or replace procedure") eqn:E; [|done].
  pose proof (startswith_app_differ (normalized s) "create or replace "
                "f" "unction" "p" "rocedure" H E). done.
Qed.

Lemma temp_not_procedure s :
  startswith (normalized s) "create temp function" = true ->
  is_procedure_definition s = false.
Proof.
  intros H. unfold is_procedure_definition.
  destruct (startswith (normalized s) "create or replace procedure") eqn:E; [|done].
  pose proof (startswith_app_differ (normalized s) "create "
                "t" "emp function" "o" "r replace procedure" H E). done.
Qed.

Lemma list_remove_elem x l l' :
  list_remove x l = Ret l' -> x ∈ l /\ forall y, y ∈ l' -> y ∈ l.
Proof.
  revert l'. induction l as [|z l IH]; intros l' H; simpl in H; [done|].
  destruct (String.eqb_spec z x) as [->|Hne].
  - injection H as <-. split; [by left | intros y ?; by right].
  - destruct (list_remove x l) as [l''|] eqn:E; simpl in H; [|done].
    injection H as <-. destruct (IH _ eq_refl) as [Hx Hsub].
    split; [by right|]. intros y [->|Hy]%elem_of_cons; [by left | right; auto].
Qed.

Section loop.
Context (S : list string) (pn tn : string).

Lemma classify_all_definitions : forall todo i l,
  l_definitions (classify_all S pn tn i l todo)
  = l_definitions l ++ List.filter is_definition todo.
Proof.
  induction todo as [|s todo IH]; intros i l; simpl; [by rewrite app_nil_r|].
  rewrite IH. unfold is_definition, classify.
  destruct (startswith (normalized s) "create or replace function"); simpl;
    [by rewrite <- app_assoc|].
  destruct (startswith (normalized s) "create temp function"); simpl;
    [by rewrite <- app_assoc|].
  destruct (startswith (normalized s) "create or replace procedure"); simpl;
    [by rewrite <- app_assoc|].
  by destruct (_ && _).
Qed.

Lemma classify_all_internal_name : forall todo i l,
  l_internal_name (classify_all S pn tn i l todo) = l_internal_name l
  \/ l_internal_name (classify_all S pn tn i l todo) = Some pn
  \/ l_internal_name (classify_all S pn tn i l todo) = Some tn.
Proof.
  induction todo as [|s todo IH]; intros i l; simpl; [by left|].
  destruct (IH (Datatypes.S i) (classify S pn tn l i s)) as [-> | H]; [|by right].
  unfold classify.
  destruct (startswith (normalized s) "create or replace function"); simpl.
  { destruct (contains pn _); auto. }
  destruct (startswith (normalized s) "create temp function"); simpl.
  { destruct (contains tn _); auto. }
  destruct (startswith (normalized s) "create or replace procedure"); simpl.
  { destruct (contains pn _); auto. }
  destruct (_ && _); auto.
Qed.

Lemma classify_all_stored_procedure : forall todo i l,
  l_is_stored_procedure (classify_all S pn tn i l todo)
  = l_is_stored_procedure l || existsb is_procedure_definition todo.
Proof.
  induction todo as [|s todo IH]; intros i l; simpl; [by rewrite orb_false_r|].
  rewrite IH. unfold classify.
  destruct (startswith (normalized s) "create or replace function") eqn:E1; simpl.
  { by rewrite (function_not_procedure s E1). }
  destruct (startswith (normalized s) "create temp function") eqn:E2; simpl.
  { by rewrite (temp_not_procedure s E2). }
  unfold is_procedure_definition.
  destruct (startswith (normalized s) "create or replace procedure"); simpl.
  { by rewrite orb_true_r. }
  by destruct (_ && _).
Qed.

(** The tests only grow. *)
Lemma classify_tests l i s :
  exists ext, l_tests (classify S pn tn l i s) = l_tests l ++ ext.
Proof.
  unfold classify.
  destruct (startswith (normalized s) "create or replace function"); simpl.
  { exists []. by rewrite app_nil_r. }
  destruct (startswith (normalized s) "create temp function"); simpl.
  { exists []. by rewrite app_nil_r. }
  destruct (startswith (normalized s) "create or replace procedure"); simpl.
  { by eexists. }
  destruct (_ && _); simpl; destruct (_ =? -1)%Z;
    rewrite <- ?app_assoc; try (by eexists).
  all: exists []; by rewrite app_nil_r.
Qed.

Lemma classify_all_tests : forall todo i l,
  exists ext, l_tests (classify_all S pn tn i l todo) = l_tests l ++ ext.
Proof.
  induction todo as [|s todo IH]; intros i l; simpl.
  - exists []. by rewrite app_nil_r.
  - destruct (IH (Datatypes.S i) (classify S pn tn l i s)) as [e2 ->].
    destruct (classify_tests l i s) as [e1 ->]. exists (e1 ++ e2).
    by rewrite app_assoc.
Qed.

Lemma classify_all_procedure_test : forall todo i l s,
  s ∈ todo -> is_procedure_definition s = true ->
  s ∈ l_tests (classify_all S pn tn i l todo).
Proof.
  induction todo as [|s' todo IH]; intros i l s Hs Hp; [inversion Hs|]. simpl.
  apply elem_of_cons in Hs as [<-|Hs]; [|by apply IH].
  destruct (classify_all_tests todo (Datatypes.S i) (classify S pn tn l i s))
    as [ext ->].
  apply elem_of_app. left. unfold classify.
  destruct (startswith (normalized s) "create or replace function") eqn:E1.
  { by rewrite (function_not_procedure s E1) in Hp. }
  destruct (startswith (normalized s) "create temp function") eqn:E2.
  { by rewrite (temp_not_procedure s E2) in Hp. }
  unfold is_procedure_definition in Hp. rewrite Hp. simpl.
  apply elem_of_app. right. by left.
Qed.

(** Without a statement that opens a span, every statement that does not
    define a function is a test. *)
Lemma classify_all_no_span : forall todo i l,
  l_procedure_start l = (-1)%Z ->
  Forall (fun s => opens_span s = false) todo ->
  l_tests (classify_all S pn tn i l todo)
  = l_tests l ++ List.filter (fun s => negb (is_function_definition s)) todo.
Proof.
  induction todo as [|s todo IH]; intros i l Hps Hall; simpl; [by rewrite app_nil_r|].
  apply Forall_cons in Hall as [Hs Hall]. unfold opens_span in Hs.
  assert (l_procedure_start (classify S pn tn l i s) = (-1)%Z /\
          l_tests (classify S pn tn l i s)
          = l_tests l ++ (if negb (is_function_definition s) then [s] else []))
    as [Hps' Htests].
  { unfold classify, is_function_definition.
    destruct (startswith (normalized s) "create or replace function"); simpl.
    { by rewrite app_nil_r. }
    destruct (startswith (normalized s) "create temp function"); simpl.
    { by rewrite app_nil_r. }
    destruct (startswith (normalized s) "create or replace procedure"); simpl; [done|].
    rewrite Hs, Hps. simpl. done. }
  rewrite IH, Htests by done. rewrite <- app_assoc.
  by destruct (negb (is_function_definition s)).
Qed.

End loop.

Lemma insert_sorted_Sorted x l :
  Sorted String.le l -> Sorted String.le (insert_sorted x l).
Proof.
  induction 1 as [|y l Hl IH Hhd]; simpl; [by repeat constructor|].
  destruct (String.leb x y) eqn:E.
  - constructor; [by constructor|]. constructor. unfold String.le. by rewrite E.
  - constructor; [done|].
    assert (String.le y x) as Hyx.
    { destruct (String.leb_total x y) as [H|H]; [congruence|].
      unfold String.le. by rewrite H. }
    destruct l as [|z l]; simpl; [by constructor|].
    destruct (String.leb x z); constructor; [done|]. by inversion Hhd.
Qed.

Lemma insert_sorted_NoDup x l : x ∉ l -> NoDup l -> NoDup (insert_sorted x l).
Proof.
  intros Hx Hl. induction Hl as [|y l Hy Hl IH]; simpl; [by apply NoDup_singleton|].
  destruct (String.leb x y).
  - constructor; [done | by constructor].
  - constructor.
    + rewrite elem_of_insert_sorted. intros [->|?]; [|done].
      apply Hx. by left.
    + apply IH. intros ?. apply Hx. by right.
Qed.

Lemma sorted_set_Sorted l :
  Sorted String.le (sorted_set l) /\ NoDup (sorted_set l).
Proof.
  unfold sorted_set. pose proof (NoDup_remove_dups l) as Hnd.
  induction Hnd as [|x l' Hx Hl' IH]; simpl; [split; constructor|].
  destruct IH as [IH1 IH2]. split.
  - by apply insert_sorted_Sorted.
  - apply insert_sorted_NoDup; [|done].
    intros Hx'. apply Hx. revert Hx'. clear.
    induction l' as [|y l' IH]; simpl; [done|].
    rewrite elem_of_insert_sorted, elem_of_cons. tauto.
Qed.

Section from_text_more.
Context (sqlparse_format : string -> string).
Context (sqlparse_split : string -> list string).
Context (mozfun_files : list (string * string * string)).

(** What a call of [from_text] that returns has gone through. *)
Lemma from_text_Ret text dataset name filepath description is_defined r :
  from_text sqlparse_format sqlparse_split mozfun_files
    text dataset name filepath description is_defined = Ret r ->
  let l := final_locals sqlparse_format sqlparse_split text dataset name in
  exists n deps,
    l_internal_name l = Some n /\
    (if is_defined
     then list_remove n (definition_usages mozfun_files (l_definitions l))
     else Ret (definition_usages mozfun_files (l_definitions l))) = Ret deps /\
    r = mkRawUdf n dataset filepath (l_definitions l) (l_tests l)
          (sorted_set deps) description (l_is_stored_procedure l).
Proof.
  unfold from_text.
  fold (statements_of sqlparse_format sqlparse_split text).
  fold (final_locals sqlparse_format sqlparse_split text dataset name).
  set (l := final_locals _ _ _ _ _). intros H. simpl.
  rewrite foldM_cons in H.
  destruct (check_name is_defined _ _ tt (Some name)) as [[]|]; [|done].
  rewrite bind_Ret, foldM_cons in H.
  destruct (l_internal_name l) as [n|] eqn:Hn; [|done].
  destruct (check_name is_defined _ _ tt (Some n)) as [[]|]; [|done].
  simpl in H.
  destruct (if is_defined then _ else _) as [deps|] eqn:Hdeps; [|done].
  simpl in H. injection H as <-. by exists n, deps.
Qed.

End from_text_more.

(** X9. The name of a record that [from_text] returns is the persistent name
    [dataset.name] or the temporary name [dataset_name] of the routine. *)
Theorem from_text_name sqlparse_format sqlparse_split mozfun_files
    text dataset nm filepath description is_defined r :
  from_text sqlparse_format sqlparse_split mozfun_files
    text dataset nm filepath description is_defined = Ret r ->
  name r = dataset +:+ "." +:+ nm \/ name r = dataset +:+ "_" +:+ nm.
Proof.
  intros H. destruct (from_text_Ret _ _ _ _ _ _ _ _ _ _ H) as (n & deps & Hn & _ & ->).
  simpl. unfold final_locals in Hn.
  destruct (classify_all_internal_name
              (statements_of sqlparse_format sqlparse_split text)
              (dataset +:+ "." +:+ nm) (dataset +:+ "_" +:+ nm)
              (statements_of sqlparse_format sqlparse_split text) 0
              (Locals None false [] [] (-1)%Z)) as [E|[E|E]];
    rewrite Hn in E; simpl in E; [done | left | right]; congruence.
Qed.

Lemma from_text_name_witness :
  "udf.a" = "udf" +:+ "." +:+ "a" \/ "udf.a" = "udf" +:+ "_" +:+ "a".
Proof.
  apply (from_text_name no_comments split_statements []
           "CREATE OR REPLACE FUNCTION udf.a() AS (udf.b()); SELECT udf.a();"
           "udf" "a" None "" true
           (mkRawUdf "udf.a" "udf" None [def_a] ["SELECT udf.a();"] ["udf.b"] "" false)).
  vm_compute. reflexivity.
Defined.

(** X10. The definitions of a record that [from_text] returns are the
    statements of the text that begin, once normalized, with [create or
    replace function], [create temp function] or [create or replace
    procedure], in the order of the text. *)
Theorem from_text_definitions sqlparse_format sqlparse_split mozfun_files
    text dataset nm filepath description is_defined r :
  from_text sqlparse_format sqlparse_split mozfun_files
    text dataset nm filepath description is_defined = Ret r ->
  definitions r
  = List.filter is_definition (statements_of sqlparse_format sqlparse_split text).
Proof.
  intros H. destruct (from_text_Ret _ _ _ _ _ _ _ _ _ _ H) as (n & deps & _ & _ & ->).
  simpl. unfold final_locals. by rewrite classify_all_definitions.
Qed.

Lemma from_text_definitions_witness :
  [def_a]
  = List.filter is_definition
      (statements_of no_comments split_statements
         "CREATE OR REPLACE FUNCTION udf.a() AS (udf.b()); SELECT udf.a();").
Proof.
  apply (from_text_definitions no_comments split_statements []
           "CREATE OR REPLACE FUNCTION udf.a() AS (udf.b()); SELECT udf.a();"
           "udf" "a" None "" true
           (mkRawUdf "udf.a" "udf" None [def_a] ["SELECT udf.a();"] ["udf.b"] "" false)).
  vm_compute. reflexivity.
Defined.

(** X11. The dependencies of a record that [from_text] returns are in
    increasing order and none occurs twice. *)
Theorem from_text_dependencies_sorted sqlparse_format sqlparse_split mozfun_files
    text dataset nm filepath description is_defined r :
  from_text sqlparse_format sqlparse_split mozfun_files
    text dataset nm filepath description is_defined = Ret r ->
  Sorted String.le (dependencies r) /\ NoDup (dependencies r).
Proof.
  intros H. destruct (from_text_Ret _ _ _ _ _ _ _ _ _ _ H) as (n & deps & _ & _ & ->).
  apply sorted_set_Sorted.
Qed.

Lemma from_text_dependencies_sorted_witness :
  Sorted String.le ["udf_js"; "udf_js.g"] /\ NoDup ["udf_js"; "udf_js.g"].
Proof.
  apply (from_text_dependencies_sorted no_comments split_statements []
           "CREATE OR REPLACE FUNCTION udf.f() AS (udf_js.g());"
           "udf" "f" None "" true
           (mkRawUdf "udf.f" "udf" None
              ["CREATE OR REPLACE FUNCTION udf.f() AS (udf_js.g());"] []
              ["udf_js"; "udf_js.g"] "" false)).
  vm_compute. reflexivity.
Defined.

(** X12. The usages that [udf_usages_in_text] returns are in increasing order
    and none occurs twice. *)
Theorem udf_usages_in_text_sorted sqlparse_format mozfun_files text :
  Sorted String.le (udf_usages_in_text sqlparse_format mozfun_files text)
  /\ NoDup (udf_usages_in_text sqlparse_format mozfun_files text).
Proof. apply sorted_set_Sorted. Qed.

(** X13. With [is_defined=True], [from_text] returns a record only when the
    patterns find the name of the record among the usages in its own
    definitions, and every dependency of the record is one of these
    usages. *)
Theorem from_text_defined_usages sqlparse_format sqlparse_split mozfun_files
    text dataset nm filepath description r :
  from_text sqlparse_format sqlparse_split mozfun_files
    text dataset nm filepath description true = Ret r ->
  name r ∈ definition_usages mozfun_files (definitions r) /\
  forall d, d ∈ dependencies r ->
            d ∈ definition_usages mozfun_files (definitions r).
Proof.
  intros H. destruct (from_text_Ret _ _ _ _ _ _ _ _ _ _ H) as (n & deps & _ & Hr & ->).
  simpl. destruct (list_remove_elem _ _ _ Hr) as [Hn Hsub]. split; [done|].
  intros d Hd. apply Hsub. by apply (proj1 (elem_of_sorted_set _ _)).
Qed.

Lemma from_text_defined_usages_witness :
  "udf.a" ∈ definition_usages [] [def_a] /\
  forall d, d ∈ ["udf.b"] -> d ∈ definition_usages [] [def_a].
Proof.
  apply (from_text_defined_usages no_comments split_statements []
           "CREATE OR REPLACE FUNCTION udf.a() AS (udf.b()); SELECT udf.a();"
           "udf" "a" None ""
           (mkRawUdf "udf.a" "udf" None [def_a] ["SELECT udf.a();"] ["udf.b"] "" false)).
  vm_compute. reflexivity.
Defined.

Lemma check_name_raise is_defined pn tn x e :
  check_name is_defined pn tn tt x = Raise e -> exists msg, e = ValueError msg.
Proof.
  unfold check_name. destruct x as [n|]; [|intros [= <-]; by eexists].
  destruct (andb is_defined _); [|done]. intros [= <-]. by eexists.
Qed.

(** X14. The only exception of [from_text] is [ValueError]. *)
Theorem from_text_raises_value_error sqlparse_format sqlparse_split mozfun_files
    text dataset nm filepath description is_defined e :
  from_text sqlparse_format sqlparse_split mozfun_files
    text dataset nm filepath description is_defined = Raise e ->
  exists msg, e = ValueError msg.
Proof.
  unfold from_text. rewrite foldM_cons. intros H.
  destruct (check_name is_defined _ _ tt (Some nm)) as [[]|e1] eqn:E1.
  2: { simpl in H. injection H as <-. by eapply check_name_raise. }
  rewrite bind_Ret, foldM_cons in H.
  destruct (check_name is_defined _ _ tt (l_internal_name _)) as [[]|e2] eqn:E2.
  2: { simpl in H. injection H as <-. by eapply check_name_raise. }
  simpl in H. destruct is_defined.
  - destruct (list_remove _ _) as [|e3] eqn:E3; [done|].
    simpl in H. injection H as <-. apply list_remove_raise in E3 as ->. by eexists.
  - done.
Qed.

Lemma from_text_raises_value_error_witness :
  exists msg,
    ValueError "Expected a function named udf.f or udf_f to be defined"
    = ValueError msg.
Proof.
  apply (from_text_raises_value_error no_comments split_statements []
           "SELECT 1;" "udf" "f" None "" true).
  vm_compute. reflexivity.
Defined.

(** X15. When no statement of the text opens a span (none begins with
    [begin]), the tests of a record that [from_text] returns are the
    statements that do not define a function, in the order of the text: the
    free-standing statements and the definitions of procedures. *)
Theorem from_text_tests_without_span sqlparse_format sqlparse_split mozfun_files
    text dataset nm filepath description is_defined r :
  from_text sqlparse_format sqlparse_split mozfun_files
    text dataset nm filepath description is_defined = Ret r ->
  Forall (fun s => opens_span s = false)
         (statements_of sqlparse_format sqlparse_split text) ->
  tests r
  = List.filter (fun s => negb (is_function_definition s))
      (statements_of sqlparse_format sqlparse_split text).
Proof.
  intros H Hall.
  destruct (from_text_Ret _ _ _ _ _ _ _ _ _ _ H) as (n & deps & _ & _ & ->).
  simpl. unfold final_locals. by rewrite classify_all_no_span.
Qed.

Lemma from_text_tests_without_span_witness :
  ["SELECT udf.a();"]
  = List.filter (fun s => negb (is_function_definition s))
      (statements_of no_comments split_statements
         "CREATE OR REPLACE FUNCTION udf.a() AS (udf.b()); SELECT udf.a();").
Proof.
  apply (from_text_tests_without_span no_comments split_statements []
           "CREATE OR REPLACE FUNCTION udf.a() AS (udf.b()); SELECT udf.a();"
           "udf" "a" None "" true
           (mkRawUdf "udf.a" "udf" None [def_a] ["SELECT udf.a();"] ["udf.b"] "" false)).
  - vm_compute. reflexivity.
  - vm_compute. repeat constructor.
Defined.

(** X16. A record that [from_text] returns is a stored procedure exactly when
    a statement of the text begins with [create or replace procedure], and
    every such statement is both a definition and a test of the record. *)
Theorem from_text_stored_procedure sqlparse_format sqlparse_split mozfun_files
    text dataset nm filepath description is_defined r :
  from_text sqlparse_format sqlparse_split mozfun_files
    text dataset nm filepath description is_defined = Ret r ->
  is_stored_procedure r
  = existsb is_procedure_definition
      (statements_of sqlparse_format sqlparse_split text) /\
  forall s, s ∈ statements_of sqlparse_format sqlparse_split text ->
            is_procedure_definition s = true ->
            s ∈ definitions r /\ s ∈ tests r.
Proof.
  intros H.
  destruct (from_text_Ret _ _ _ _ _ _ _ _ _ _ H) as (n & deps & _ & _ & ->).
  simpl. unfold final_locals. split.
  - by rewrite classify_all_stored_procedure.
  - intros s Hs Hp. split.
    + rewrite classify_all_definitions. simpl.
      apply list_elem_of_In, filter_In. split; [by apply list_elem_of_In|].
      unfold is_definition. unfold is_procedure_definition in Hp.
      by rewrite Hp, orb_true_r.
    + by apply classify_all_procedure_test.
Qed.

Lemma from_text_stored_procedure_witness :
  true = existsb is_procedure_definition
           (statements_of no_comments split_statements
              "CREATE OR REPLACE PROCEDURE udf.p() BEGIN SELECT 1 END;") /\
  forall s,
    s ∈ statements_of no_comments split_statements
          "CREATE OR REPLACE PROCEDURE udf.p() BEGIN SELECT 1 END;" ->
    is_procedure_definition s = true ->
    s ∈ ["CREATE OR REPLACE PROCEDURE udf.p() BEGIN SELECT 1 END;"]
    /\ s ∈ ["CREATE OR REPLACE PROCEDURE udf.p() BEGIN SELECT 1 END;"].
Proof.
  apply (from_text_stored_procedure no_comments split_statements []
           "CREATE OR REPLACE PROCEDURE udf.p() BEGIN SELECT 1 END;"
           "udf" "p" None "" true
           (mkRawUdf "udf.p" "udf" None
              ["CREATE OR REPLACE PROCEDURE udf.p() BEGIN SELECT 1 END;"]
              ["CREATE OR REPLACE PROCEDURE udf.p() BEGIN SELECT 1 END;"]
              [] "" true)).
  vm_compute. reflexivity.
Defined.

Section merge.
Context (S : list string) (pn tn : string).

Lemma classify_opens l i s :
  opens_span s = true -> endswith (normalized s) "end;" = false ->
  classify S pn tn l i s
  = Locals (l_internal_name l) (l_is_stored_procedure l) (l_definitions l)
           (l_tests l) (Z.of_nat i).
Proof.
  unfold opens_span. intros Hb He. unfold classify.
  destruct (startswith_begin _ Hb) as (-> & -> & ->).
  rewrite Hb, He, andb_false_r.
  destruct (Z.of_nat i =? -1)%Z eqn:E; [apply Z.eqb_eq in E; lia | done].
Qed.

Lemma classify_inside_span l i s :
  inside_span s = true -> (0 <= l_procedure_start l)%Z ->
  classify S pn tn l i s = l.
Proof.
  unfold inside_span, is_definition, opens_span. intros H Hps.
  apply andb_true_iff in H as [H He]. apply andb_true_iff in H as [Hd Hb].
  apply negb_true_iff in Hd, Hb, He.
  apply orb_false_iff in Hd as [Hd H3]. apply orb_false_iff in Hd as [H1 H2].
  unfold classify. rewrite H1, H2, H3, Hb, He, andb_false_r.
  destruct (l_procedure_start l =? -1)%Z eqn:E; [apply Z.eqb_eq in E; lia|].
  by destruct l.
Qed.

Lemma classify_all_inside_span : forall mid i l,
  Forall (fun s => inside_span s = true) mid -> (0 <= l_procedure_start l)%Z ->
  classify_all S pn tn i l mid = l.
Proof.
  induction mid as [|s mid IH]; intros i l Hall Hps; [done|].
  apply Forall_cons in Hall as [Hs Hall]. simpl.
  rewrite classify_inside_span by done. by apply IH.
Qed.

Lemma classify_closes l i s :
  closes_span s = true -> (0 <= l_procedure_start l)%Z ->
  classify S pn tn l i s
  = Locals (l_internal_name l) (l_is_stored_procedure l) (l_definitions l)
           (l_tests l ++ [join " " (slice (l_procedure_start l) (Z.of_nat i + 1) S)])
           (-1)%Z.
Proof.
  unfold closes_span, is_definition, opens_span. intros H Hps.
  apply andb_true_iff in H as [H He]. apply andb_true_iff in H as [Hd Hb].
  apply negb_true_iff in Hd, Hb.
  apply orb_false_iff in Hd as [Hd H3]. apply orb_false_iff in Hd as [H1 H2].
  unfold classify. rewrite H1, H2, H3, Hb, He, andb_true_r.
  destruct (l_procedure_start l =? -1)%Z eqn:E; [apply Z.eqb_eq in E; lia|].
  by rewrite (proj2 (Z.gtb_lt _ _)) by lia.
Qed.

End merge.

Lemma slice_span (pre : list string) b mid e post :
  slice (Z.of_nat (length pre))
        (Z.of_nat (length pre + Datatypes.S (length mid)) + 1)
        (pre ++ b :: mid ++ e :: post)
  = b :: mid ++ [e].
Proof.
  unfold slice. rewrite Nat2Z.id, drop_app_length.
  replace (Z.to_nat _) with (length (b :: mid ++ [e]))
    by (simpl; rewrite length_app; simpl; lia).
  change (b :: mid ++ e :: post) with ((b :: mid) ++ [e] ++ post).
  rewrite app_assoc. by rewrite take_app_length.
Qed.

(** X17. A span is merged into one test: when a statement that begins with
    [begin] and does not end with [end;] is followed by statements that are
    no definitions and neither begin with [begin] nor end with [end;], and
    then by a statement that ends with [end;], is no definition and does not
    begin with [begin], the record that [from_text] returns has among its
    tests the statements of the span joined by single spaces. *)
Theorem from_text_merges_span sqlparse_format sqlparse_split mozfun_files
    text dataset nm filepath description is_defined r pre b mid e post :
  from_text sqlparse_format sqlparse_split mozfun_files
    text dataset nm filepath description is_defined = Ret r ->
  statements_of sqlparse_format sqlparse_split text
  = pre ++ b :: mid ++ e :: post ->
  opens_span b = true -> endswith (normalized b) "end;" = false ->
  Forall (fun s => inside_span s = true) mid ->
  closes_span e = true ->
  join " " (b :: mid ++ [e]) ∈ tests r.
Proof.
  intros H Hst Hb Hbe Hmid He.
  destruct (from_text_Ret _ _ _ _ _ _ _ _ _ _ H) as (n & deps & _ & _ & ->).
  cbn [tests]. unfold final_locals. rewrite Hst.
  set (S := pre ++ b :: mid ++ e :: post).
  set (pn := dataset +:+ "." +:+ nm). set (tn := dataset +:+ "_" +:+ nm).
  unfold S at 2.
  rewrite (classify_all_app pn tn S pre). cbn [classify_all].
  set (l1 := classify_all S pn tn 0 _ pre).
  rewrite (classify_opens S pn tn l1 _ b Hb Hbe).
  change (mid ++ e :: post) with (mid ++ [e] ++ post).
  rewrite (classify_all_app pn tn S mid).
  rewrite (classify_all_inside_span S pn tn mid) by (done || (simpl; lia)).
  rewrite (classify_all_app pn tn S [e]). cbn [classify_all].
  rewrite classify_closes by (done || (simpl; lia)). cbn [l_procedure_start l_tests l_internal_name l_is_stored_procedure l_definitions].
  match goal with |- _ ∈ l_tests (classify_all _ _ _ ?i ?l post) =>
    destruct (classify_all_tests S pn tn post i l) as [ext Hext] end.
  rewrite Hext. cbn [l_tests].
  change (0 + length pre) with (length pre).
  replace (Datatypes.S (length pre) + length mid)
    with (length pre + Datatypes.S (length mid)) by lia.
  unfold S. rewrite slice_span.
  apply elem_of_app. left. apply elem_of_app. right. by left.
Qed.

Lemma from_text_merges_span_witness :
  join " " ("BEGIN SELECT 2;" :: ["SELECT 3;"] ++ ["END;"])
  ∈ ["SELECT 1;"; "BEGIN SELECT 2; SELECT 3; END;"].
Proof.
  apply (from_text_merges_span no_comments split_statements []
           "CREATE OR REPLACE FUNCTION udf.f() AS (1);  SELECT 1; BEGIN SELECT 2; SELECT 3; END;"
           "udf" "f" None "" true
           (mkRawUdf "udf.f" "udf" None ["CREATE OR REPLACE FUNCTION udf.f() AS (1);"]
              ["SELECT 1;"; "BEGIN SELECT 2; SELECT 3; END;"] [] "" false)
           ["CREATE OR REPLACE FUNCTION udf.f() AS (1);"; "SELECT 1;"]
           "BEGIN SELECT 2;" ["SELECT 3;"] "END;" []).
  - vm_compute. reflexivity.
  - vm_compute. reflexivity.
  - reflexivity.
  - reflexivity.
  - repeat constructor.
  - reflexivity.
Defined.

Lemma consumed_refl st : consumed st st.
Proof. by exists "". Qed.

Lemma consumed_trans st1 st2 st3 :
  consumed st1 st2 -> consumed st2 st3 -> consumed st1 st3.
Proof.
  intros (w1 & H1 & P1) (w2 & H2 & P2). exists (w1 +:+ w2). split.
  - by rewrite H1, H2, app_assoc_s.
  - rewrite length_app_s. lia.
Qed.

Lemma star_inv (P : mstate -> mstate -> Prop) m :
  (forall st, P st st) -> (forall a b c, P a b -> P b c -> P a c) ->
  (forall st st', st' ∈ m st -> P st st') ->
  forall fuel st st', st' ∈ star m fuel st -> P st st'.
Proof.
  intros Hrefl Htrans Hm. induction fuel as [|fuel IH]; intros st st' H.
  - apply list_elem_of_singleton in H as ->. apply Hrefl.
  - rewrite star_S in H. apply elem_of_app in H as [H|H].
    + apply list_elem_of_bind in H as (st1 & H & H1).
      destruct (_ <? _); [|inversion H]. eauto.
    + apply list_elem_of_singleton in H as ->. apply Hrefl.
Qed.

Lemma upto_inv (P : mstate -> mstate -> Prop) m :
  (forall st, P st st) -> (forall a b c, P a b -> P b c -> P a c) ->
  (forall st st', st' ∈ m st -> P st st') ->
  forall n st st', st' ∈ upto m n st -> P st st'.
Proof.
  intros Hrefl Htrans Hm. induction n as [|n IH]; intros st st' H.
  - apply list_elem_of_singleton in H as ->. apply Hrefl.
  - rewrite upto_S in H. apply elem_of_app in H as [H|H].
    + apply list_elem_of_bind in H as (st1 & H & H1). eauto.
    + apply list_elem_of_singleton in H as ->. apply Hrefl.
Qed.

(** A match reads a prefix of the text and moves on by its length. *)
Lemma matches_consumed r : forall st st', st' ∈ matches r st -> consumed st st'.
Proof.
  induction r as [ | p | r1 IH1 r2 IH2 | r1 IH1 r2 IH2 | r IH | n r IH | i r IH | | ];
    intros st st' H.
  - apply list_elem_of_singleton in H as ->. apply consumed_refl.
  - simpl in H. destruct (rest st) as [|c s] eqn:E; [inversion H|].
    destruct (p c); [|inversion H]. apply list_elem_of_singleton in H as ->.
    exists (String c ""). by rewrite E.
  - rewrite matches_seq in H. apply list_elem_of_bind in H as (st1 & H & H1).
    eapply consumed_trans; eauto.
  - rewrite matches_alt in H. apply elem_of_app in H as [H|H]; eauto.
  - revert H. apply star_inv; [apply consumed_refl | apply consumed_trans | done].
  - revert H. apply upto_inv; [apply consumed_refl | apply consumed_trans | done].
  - rewrite matches_group in H. apply list_elem_of_fmap in H as (st1 & -> & H).
    apply IH in H as (w & Hw & Hp). by exists w.
  - simpl in H. destruct (pos st =? 0); [|inversion H].
    apply list_elem_of_singleton in H as ->. apply consumed_refl.
  - simpl in H. destruct (_ || _); [|inversion H].
    apply list_elem_of_singleton in H as ->. apply consumed_refl.
Qed.

(** A pattern without groups leaves the captures as they are. *)
Lemma matches_caps r :
  group_free r = true -> forall st st', st' ∈ matches r st -> caps st' = caps st.
Proof.
  induction r as [ | p | r1 IH1 r2 IH2 | r1 IH1 r2 IH2 | r IH | n r IH | i r IH | | ];
    intros Hg st st' H; simpl in Hg; try apply andb_true_iff in Hg as [Hg1 Hg2].
  - by apply list_elem_of_singleton in H as ->.
  - simpl in H. destruct (rest st) as [|c s] eqn:E; [inversion H|].
    destruct (p c); [|inversion H]. by apply list_elem_of_singleton in H as ->.
  - rewrite matches_seq in H. apply list_elem_of_bind in H as (st1 & H & H1).
    rewrite (IH2 Hg2 _ _ H). by apply IH1.
  - rewrite matches_alt in H. apply elem_of_app in H as [H|H]; eauto.
  - revert H. apply (star_inv (fun a b => caps b = caps a));
      [done | congruence | by apply IH].
  - revert H. apply (upto_inv (fun a b => caps b = caps a));
      [done | congruence | by apply IH].
  - done.
  - simpl in H. destruct (pos st =? 0); [|inversion H].
    by apply list_elem_of_singleton in H as ->.
  - simpl in H. destruct (_ || _); [|inversion H].
    by apply list_elem_of_singleton in H as ->.
Qed.

Lemma matches_group_inv i r st st' :
  st' ∈ matches (RGroup i r) st ->
  exists w st1,
    st1 ∈ matches r st /\ rest st = w +:+ rest st'
    /\ pos st' = String.length w + pos st /\ caps st' = (i, w) :: caps st1.
Proof.
  rewrite matches_group. intros (st1 & -> & H)%list_elem_of_fmap.
  destruct (matches_consumed _ _ _ H) as (w & Hw & Hp). exists w, st1. simpl.
  repeat split; [done.. | ]. rewrite Hw, Hp.
  by rewrite Nat.add_sub, take_str_app.
Qed.

(** A match of [PERSISTENT_UDF_RE]: its two groups with a dot between. *)
Lemma persistent_match_shape p s m :
  match_at PERSISTENT_UDF_RE p s = Some m ->
  exists w1 w2 t,
    s = w1 +:+ "." +:+ w2 +:+ t /\ m_text m = w1 +:+ "." +:+ w2
    /\ group 1 m = w1 /\ group 2 m = w2.
Proof.
  unfold match_at. destruct (matches PERSISTENT_UDF_RE _) as [|st l] eqn:E; [done|].
  intros [= <-].
  assert (st ∈ matches PERSISTENT_UDF_RE (MState p s [])) as H by (rewrite E; left).
  clear E l. unfold PERSISTENT_UDF_RE in H.
  rewrite matches_seq in H. apply list_elem_of_bind in H as (st1 & H & H1).
  rewrite matches_seq in H. apply list_elem_of_bind in H as (st2 & H & H2).
  apply matches_group_inv in H1 as (w1 & s1 & _ & Hw1 & Hp1 & Hc1).
  apply matches_group_inv in H as (w2 & s3 & Hs3 & Hw2 & Hp2 & Hc2).
  destruct (proj1 (accepts_set (Ascii.eqb ".") st1 (rest st2))) as (c & Hc & Hdot);
    [by exists st2|].
  apply eqb_dot in Hdot as ->.
  assert (caps st2 = caps st1) as Hcaps
    by (apply (matches_caps (RChar ".")); done).
  assert (caps s3 = caps st2) as Hcaps3
    by (apply (matches_caps (RPlus (RSet udf_char))); done).
  assert (pos st2 = Datatypes.S (pos st1)) as Hp.
  { unfold RChar in H2. rewrite (matches_set _ st1 "." (rest st2) Hc) in H2.
    simpl in H2. by apply list_elem_of_singleton in H2 as ->. }
  simpl in Hw1, Hp1. exists w1, w2, (rest st). simpl.
  assert (s = w1 +:+ "." +:+ w2 +:+ rest st) as Hs.
  { rewrite Hw1, Hc, Hw2. done. }
  split; [done|]. split; [|split].
  - rewrite Hs at 1. rewrite <- (app_assoc_s "." w2), <- (app_assoc_s w1).
    apply take_str_app'. rewrite !length_app_s. simpl. lia.
  - unfold group. simpl. rewrite Hc2, Hcaps3, Hcaps, Hc1. done.
  - unfold group. simpl. by rewrite Hc2.
Qed.

Lemma dots_refl s : dots_to_underscores s s.
Proof. induction s; by constructor. Qed.

Lemma dots_app a a' b b' :
  dots_to_underscores a a' -> dots_to_underscores b b' ->
  dots_to_underscores (a +:+ b) (a' +:+ b').
Proof. induction 1; intros Hb; rewrite ?app_cons_s; [done | constructor; auto..]. Qed.

Lemma dots_length s t :
  dots_to_underscores s t -> String.length t = String.length s.
Proof. induction 1; simpl; congruence. Qed.

(** If every replacement is its match with dots turned into underscores, so
    is the whole text that [sub] returns. *)
Lemma render_scan_dots r repl :
  (forall p s m, match_at r p s = Some m ->
     m_text m <> "" /\ (exists t, s = m_text m +:+ t)
     /\ dots_to_underscores (m_text m) (repl m)) ->
  forall n s p, String.length s <= n ->
    dots_to_underscores s (render repl (scan r p 0 s)).
Proof.
  intros Hm. induction n as [|n IH]; intros s p Hn.
  - destruct s; [|simpl in Hn; lia]. simpl.
    destruct (match_at r p "") as [m|] eqn:E; [|constructor].
    destruct (Hm _ _ _ E) as (Hne & (t & Ht) & _).
    destruct (m_text m); [done | by rewrite app_cons_s in Ht].
  - destruct s as [|c s]; [apply (IH "" p); simpl; lia|].
    destruct (match_at r p (String c s)) as [m|] eqn:E.
    + destruct (Hm _ _ _ E) as (Hne & (t & Ht) & Hd).
      destruct (m_text m) as [|c' w] eqn:Hw; [done|].
      rewrite app_cons_s in Ht. injection Ht as <- ->.
      rewrite (scan_hit r p c _ m (String.length w) E) by (by rewrite Hw).
      rewrite scan_skip. simpl render. rewrite <- app_cons_s.
      apply dots_app; [done|]. apply IH.
      simpl in Hn. rewrite length_app_s in Hn. lia.
    + rewrite scan_gap by done. simpl. constructor. apply IH. simpl in Hn. lia.
Qed.

(** X18. [sub_persistent_udf_names_as_temp] turns dots into underscores and
    does nothing else: the text it returns has the length of the text it is
    given and differs from it only where that has a dot and the result an
    underscore. *)
Theorem sub_persistent_only_dots text :
  dots_to_underscores text (sub_persistent_udf_names_as_temp text)
  /\ String.length (sub_persistent_udf_names_as_temp text) = String.length text.
Proof.
  assert (dots_to_underscores text (sub_persistent_udf_names_as_temp text)) as H.
  { unfold sub_persistent_udf_names_as_temp, re_sub.
    apply (render_scan_dots _ _) with (n := String.length text); [|done].
    intros p s m Hm.
    destruct (persistent_match_shape p s m Hm) as (w1 & w2 & t & -> & Ht & -> & ->).
    rewrite Ht. split; [by destruct w1|]. split.
    - exists t. by rewrite !app_assoc_s.
    - apply dots_app; [apply dots_refl|]. apply dtu_dot, dots_refl. }
  split; [done | by apply dots_length].
Qed.

Lemma usages_loop_elem sql routines x : forall udf_usages,
  x ∈ udf_usages \/ (exists r, r ∈ routines /\ routine_name r = x
                               /\ contains x sql = true) ->
  x ∈ foldl (fun udf_usages routine =>
               if contains (routine_name routine) sql
               then udf_usages ++ [routine_name routine] else udf_usages)
            udf_usages routines.
Proof.
  induction routines as [|r routines IH]; intros us H; simpl.
  - destruct H as [?|(r & Hr & _)]; [done | inversion Hr].
  - apply IH. destruct H as [H|(r' & Hr' & Hn & Hc)].
    + left. destruct (contains (routine_name r) sql); [|done].
      apply elem_of_app. by left.
    + apply elem_of_cons in Hr' as [->|Hr']; [|right; by exists r'].
      left. rewrite Hn, Hc. apply elem_of_app. right. by left.
Qed.

(** X19. A routine of mozfun is reported wherever its name occurs: for every
    file [udf.sql] or [stored_procedure.sql] found under the mozfun
    directory, the name made of the last two directories of the file is a
    usage of every text that contains it, be it inside a longer word. *)
Theorem udf_usages_in_text_mozfun sqlparse_format mozfun_files text
    parent base filename :
  (parent, base, filename) ∈ mozfun_files ->
  filename = UDF_FILE \/ filename = PROCEDURE_FILE ->
  contains (parent +:+ "." +:+ base) (sqlparse_format text) = true ->
  parent +:+ "." +:+ base ∈ udf_usages_in_text sqlparse_format mozfun_files text.
Proof.
  intros Hin Hfile Hc. unfold udf_usages_in_text. rewrite elem_of_sorted_set.
  apply usages_loop_elem. right.
  exists (Routine (parent +:+ "." +:+ base) (String.eqb filename UDF_FILE)).
  split; [|done]. unfold MOZFUN_ROUTINES.
  apply list_elem_of_fmap. exists (parent, base, filename). split; [done|].
  apply list_elem_of_In, filter_In. split; [by apply list_elem_of_In|].
  by destruct Hfile as [-> | ->].
Qed.

Lemma udf_usages_in_text_mozfun_witness :
  "norm" +:+ "." +:+ "truncate"
  ∈ udf_usages_in_text no_comments [("norm", "truncate", "udf.sql")]
      "SELECT xnorm.truncated(1);".
Proof.
  apply (udf_usages_in_text_mozfun no_comments [("norm", "truncate", "udf.sql")]
           "SELECT xnorm.truncated(1);" "norm" "truncate" "udf.sql").
  - left.
  - left. reflexivity.
  - reflexivity.
Defined.

(** * The order of the rewritten statements *)






Section move.
Context (c : ascii) (k : nat) (w : string) (Hw : tail_of c w = true).





Lemma take_str_nil n : take_str n "" = "".
Proof. by destruct n. Qed.


End move.



















Section order.
Context (sqlparse_format : string -> string).
Context (mozfun_files : list (string * string * string)).
Context (raw_udfs : gmap string RawUdf).



End order.


